(** * construction_buddy: catalog scraper and invoice arithmetic

    A shallow embedding of [scrape_ahlsell.py] (name cleaning, section
    parsing, de-duplication) and of the arithmetic of
    [vvs_invoice_app.py], with the properties of its specification.

    Python [str] values are sequences of Unicode code points; they are
    modelled as [list Z].  Indices and lengths are [nat]. *)

From Stdlib Require Import ZArith Bool Lia QArith Floats.PrimFloat.
From Stdlib Require Floats.FloatOps Floats.SpecFloat.
From stdpp Require Import base tactics option list strings gmap sorting.

Local Open Scope Z_scope.
Local Open Scope list_scope.

(** ** Python strings *)

Abbreviation pystr := (list Z).

Module Lit.

(** String literals of the source are written as Rocq strings (UTF-8
    bytes) and decoded to code points. *)

Fixpoint bytes_of (s : string) : list Z :=
  match s with
  | EmptyString => []
  | String a s' => Z.of_nat (Ascii.nat_of_ascii a) :: bytes_of s'
  end.

Fixpoint utf8_decode (bs : list Z) : list Z :=
  match bs with
  | [] => []
  | b0 :: r =>
      if b0 <? 128 then b0 :: utf8_decode r
      else if b0 <? 224 then
        match r with
        | b1 :: r1 => ((b0 - 192) * 64 + (b1 - 128)) :: utf8_decode r1
        | [] => []
        end
      else if b0 <? 240 then
        match r with
        | b1 :: b2 :: r2 =>
            ((b0 - 224) * 4096 + (b1 - 128) * 64 + (b2 - 128)) :: utf8_decode r2
        | _ => []
        end
      else
        match r with
        | b1 :: b2 :: b3 :: r3 =>
            ((b0 - 240) * 262144 + (b1 - 128) * 4096 + (b2 - 128) * 64 + (b3 - 128))
              :: utf8_decode r3
        | _ => []
        end
  end.

Definition py (s : string) : list Z := utf8_decode (bytes_of s).

End Lit.

Abbreviation py := Lit.py.

(** ** The Unicode database

    [re] and [str] consult CPython's Unicode tables: [\s] and
    [str.strip]/[str.split] use [str.isspace]; [\d] uses
    [str.isdecimal]; [\w] and [\b] use [str.isalnum] or ['_'];
    [str.lower] is a whole-string function.  The tables are not part
    of the repository, so the model takes them as an interface, with
    what the proofs use of them: their values on ASCII, and that a
    decimal digit is alphanumeric. *)

Definition in_range (lo hi c : Z) : bool := (lo <=? c) && (c <=? hi).

Module Ascii7.

Definition a_isspace (c : Z) : bool := in_range 9 13 c || in_range 28 32 c.
Definition a_isdecimal (c : Z) : bool := in_range 48 57 c.
Definition a_isalnum (c : Z) : bool :=
  in_range 48 57 c || in_range 65 90 c || in_range 97 122 c.

End Ascii7.

Class Unicode := {
  isspace : Z -> bool;
  isdecimal : Z -> bool;
  isalnum : Z -> bool;
  str_lower : list Z -> list Z;
  isspace_ascii : forall c, 0 <= c < 128 -> isspace c = Ascii7.a_isspace c;
  isdecimal_ascii : forall c, 0 <= c < 128 -> isdecimal c = Ascii7.a_isdecimal c;
  isalnum_ascii : forall c, 0 <= c < 128 -> isalnum c = Ascii7.a_isalnum c;
  isdecimal_isalnum : forall c, isdecimal c = true -> isalnum c = true
}.

(** The tables on U+0000..U+00FF, as CPython has them.  Code points
    above U+00FF are classified as symbols; the concrete examples below
    only use characters up to U+00FF. *)
Module Latin1.

Definition l1_isspace (c : Z) : bool :=
  in_range 9 13 c || in_range 28 32 c || (c =? 133) || (c =? 160).

Definition l1_isdecimal (c : Z) : bool := in_range 48 57 c.

Definition l1_isalnum (c : Z) : bool :=
  in_range 48 57 c || in_range 65 90 c || in_range 97 122 c
  || (c =? 170) || (c =? 178) || (c =? 179) || (c =? 181)
  || (c =? 185) || (c =? 186) || in_range 188 190 c
  || in_range 192 214 c || in_range 216 246 c || in_range 248 255 c.

Definition l1_lower_char (c : Z) : Z :=
  if in_range 65 90 c || in_range 192 214 c || in_range 216 222 c
  then c + 32 else c.

#[export, refine] Instance latin1 : Unicode := {|
  isspace := l1_isspace;
  isdecimal := l1_isdecimal;
  isalnum := l1_isalnum;
  str_lower := map l1_lower_char
|}.
Proof.
  - intros c Hc. unfold l1_isspace, Ascii7.a_isspace.
    rewrite (proj2 (Z.eqb_neq c 133)), (proj2 (Z.eqb_neq c 160)) by lia.
    now rewrite !orb_false_r.
  - reflexivity.
  - intros c Hc.
    assert (forall lo hi, c < lo -> in_range lo hi c = false) as Hr.
    { intros lo hi H. unfold in_range.
      now rewrite (proj2 (Z.leb_gt lo c)) by lia. }
    unfold l1_isalnum, Ascii7.a_isalnum.
    rewrite (proj2 (Z.eqb_neq c 170)), (proj2 (Z.eqb_neq c 178)),
      (proj2 (Z.eqb_neq c 179)), (proj2 (Z.eqb_neq c 181)),
      (proj2 (Z.eqb_neq c 185)), (proj2 (Z.eqb_neq c 186)) by lia.
    rewrite (Hr 188), (Hr 192), (Hr 216), (Hr 248) by lia.
    now rewrite !orb_false_r.
  - unfold l1_isdecimal, l1_isalnum. intros c ->. reflexivity.
Defined.

End Latin1.

(** ** [str] methods *)

Section Str.
Context {U : Unicode}.

Fixpoint str_eqb (a b : list Z) : bool :=
  match a, b with
  | [], [] => true
  | x :: a', y :: b' => (x =? y) && str_eqb a' b'
  | _, _ => false
  end.

Definition mem (c : Z) (cs : list Z) : bool := existsb (Z.eqb c) cs.

(** [s.startswith(p)] *)
Fixpoint startswith (s p : list Z) : bool :=
  match p, s with
  | [], _ => true
  | y :: p', x :: s' => (x =? y) && startswith s' p'
  | _ :: _, [] => false
  end.

(** [s.lstrip(chars)], with the set of characters as a predicate *)
Fixpoint lstrip_by (p : Z -> bool) (s : list Z) : list Z :=
  match s with
  | x :: s' => if p x then lstrip_by p s' else s
  | [] => []
  end.

(** [s.rstrip(chars)] *)
Fixpoint rstrip_by (p : Z -> bool) (s : list Z) : list Z :=
  match s with
  | [] => []
  | x :: s' =>
      match rstrip_by p s' with
      | [] => if p x then [] else [x]
      | r => x :: r
      end
  end.

(** [s.lstrip()] and [s.strip()] *)
Definition lstrip (s : list Z) : list Z := lstrip_by isspace s.
Definition strip (s : list Z) : list Z := rstrip_by isspace (lstrip_by isspace s).

(** [s.find(c)] for a one-character needle: [None] stands for [-1]. *)
Fixpoint find_char (c : Z) (s : list Z) : option nat :=
  match s with
  | [] => None
  | x :: s' => if x =? c then Some 0%nat else option_map S (find_char c s')
  end.

(** [s.split()]: maximal runs of non-whitespace characters. *)
Fixpoint split_ws_aux (cur : list Z) (s : list Z) : list (list Z) :=
  match s with
  | [] => match cur with [] => [] | _ => [rev cur] end
  | x :: s' =>
      if isspace x
      then match cur with
           | [] => split_ws_aux [] s'
           | _ => rev cur :: split_ws_aux [] s'
           end
      else split_ws_aux (x :: cur) s'
  end.

Definition split_ws (s : list Z) : list (list Z) := split_ws_aux [] s.

(** [sep.join(parts)] *)
Fixpoint join (sep : list Z) (parts : list (list Z)) : list Z :=
  match parts with
  | [] => []
  | [p] => p
  | p :: ps => p ++ sep ++ join sep ps
  end.

(** [s.split(sep)] for a non-empty separator: left-to-right,
    non-overlapping occurrences; always at least one piece. *)
Fixpoint split_sep_aux (sep : list Z) (cur : list Z) (skip : nat) (s : list Z)
  : list (list Z) :=
  match s with
  | [] => [rev cur]
  | x :: s' =>
      match skip with
      | S n => split_sep_aux sep cur n s'
      | O =>
          if startswith s sep
          then rev cur :: split_sep_aux sep [] (length sep - 1) s'
          else split_sep_aux sep (x :: cur) 0 s'
      end
  end.

Definition split_sep (sep s : list Z) : list (list Z) := split_sep_aux sep [] 0 s.

End Str.

(** ** A backtracking matcher for the [re] patterns of the source

    Python's [re] is a backtracking matcher: alternatives are tried
    left to right, greedy repetitions try one more iteration before
    stopping, and the first successful path is the match.  The matcher
    below explores paths in that order, in continuation-passing
    style. *)

Module Re.

Inductive re : Type :=
| Eps
| Cls (p : Z -> bool)                        (* one character of a class *)
| WordB                                      (* [\b] *)
| Seq (r1 r2 : re)
| Alt (r1 r2 : re)                           (* [r1|r2] *)
| Rep (lo : nat) (hi : option nat) (r : re)  (* greedy [r{lo,hi}] *)
| Grp (r : re).                              (* capturing group 1 *)

(** A position in the subject: the character before it (for [\b]), the
    text from it on, its index, and the text captured by group 1. *)
Record cur : Type := Cur {
  prev : option Z;
  rest : list Z;
  pos : nat;
  grp : list Z
}.

Definition start_of (s : list Z) : cur :=
  {| prev := None; rest := s; pos := 0; grp := [] |}.

Section Match.
Context {U : Unicode}.

(** [\w] *)
Definition isword (c : Z) : bool := isalnum c || (c =? 95).

Definition isword_opt (o : option Z) : bool :=
  match o with Some c => isword c | None => false end.

Definition at_boundary (c : cur) : bool :=
  xorb (isword_opt (prev c)) (isword_opt (head (rest c))).

Definition below (hi : option nat) (i : nat) : bool :=
  match hi with Some h => (i <? h)%nat | None => true end.

(** The greedy loop of [r{lo,hi}], given the matcher of [r]: [i]
    iterations are done; one more is tried first, then the rest of the
    pattern.  An iteration has to consume a character to be repeated,
    so the length of the remaining text bounds the iterations. *)
Fixpoint rep_loop {A : Type} (body : cur -> (cur -> option A) -> option A)
    (lo : nat) (hi : option nat) (k : cur -> option A)
    (fuel i : nat) (c0 : cur) {struct fuel} : option A :=
  let stop := if (lo <=? i)%nat then k c0 else None in
  match fuel with
  | O => stop
  | S f =>
      if below hi i
      then match body c0 (fun c' => if (pos c0 <? pos c')%nat
                                    then rep_loop body lo hi k f (S i) c'
                                    else None) with
           | Some a => Some a
           | None => stop
           end
      else stop
  end.

Fixpoint mt {A : Type} (r : re) (c : cur) (k : cur -> option A) : option A :=
  match r with
  | Eps => k c
  | Cls p =>
      match rest c with
      | x :: t =>
          if p x
          then k {| prev := Some x; rest := t; pos := S (pos c); grp := grp c |}
          else None
      | [] => None
      end
  | WordB => if at_boundary c then k c else None
  | Seq r1 r2 => mt r1 c (fun c' => mt r2 c' k)
  | Alt r1 r2 =>
      match mt r1 c k with
      | Some a => Some a
      | None => mt r2 c k
      end
  | Rep lo hi r1 =>
      rep_loop (fun c0 k0 => mt r1 c0 k0) lo hi k (S (length (rest c))) 0%nat c
  | Grp r1 =>
      mt r1 c (fun c' =>
        k {| prev := prev c'; rest := rest c'; pos := pos c';
             grp := take (pos c' - pos c) (rest c) |})
  end.

(** One attempt at a position; group 1 starts out empty. *)
Definition match_at (r : re) (c : cur) : option cur :=
  mt r {| prev := prev c; rest := rest c; pos := pos c; grp := [] |} Some.

(** [re.match(r, s)] *)
Definition re_match (r : re) (s : list Z) : option cur := match_at r (start_of s).

(** Leftmost match at or after a position: the start index and the
    position after the match.  The end of the text is tried too. *)
Fixpoint search_from (r : re) (pv : option Z) (s : list Z) (p : nat)
  : option (nat * cur) :=
  match match_at r {| prev := pv; rest := s; pos := p; grp := [] |} with
  | Some c' => Some (p, c')
  | None =>
      match s with
      | [] => None
      | x :: s' => search_from r (Some x) s' (S p)
      end
  end.

(** [re.search(r, s)] *)
Definition re_search (r : re) (s : list Z) : option (nat * cur) :=
  search_from r None s 0.

(** [r.finditer(s)]: successive non-overlapping matches, each search
    resuming where the previous match ended.  Every pattern the source
    iterates matches at least one character; an empty match ends the
    iteration here. *)
Fixpoint finditer_from (fuel : nat) (r : re) (c : cur) : list (nat * cur) :=
  match fuel with
  | O => []
  | S f =>
      match search_from r (prev c) (rest c) (pos c) with
      | None => []
      | Some (st, c') =>
          if (st <? pos c')%nat then (st, c') :: finditer_from f r c' else []
      end
  end.

Definition finditer (r : re) (s : list Z) : list (nat * cur) :=
  finditer_from (S (length s)) r (start_of s).

(** [re.sub(r, repl, s)] for a replacement without group references. *)
Fixpoint sub_pieces (repl : list Z) (s : list Z) (at_ : nat) (ms : list (nat * cur))
  : list Z :=
  match ms with
  | [] => drop at_ s
  | (st, c') :: ms' =>
      take (st - at_) (drop at_ s) ++ repl ++ sub_pieces repl s (pos c') ms'
  end.

Definition re_sub (r : re) (repl s : list Z) : list Z :=
  sub_pieces repl s 0 (finditer r s).

End Match.

(** Pattern syntax *)

Fixpoint lit (s : list Z) : re :=
  match s with
  | [] => Eps
  | [c] => Cls (Z.eqb c)
  | c :: s' => Seq (Cls (Z.eqb c)) (lit s')
  end.

Fixpoint seqs (rs : list re) : re :=
  match rs with
  | [] => Eps
  | [r] => r
  | r :: rs' => Seq r (seqs rs')
  end.

Fixpoint alts (rs : list re) : re :=
  match rs with
  | [] => Eps
  | [r] => r
  | r :: rs' => Alt r (alts rs')
  end.

(** [r{n}] *)
Definition times (n : nat) (r : re) : re := seqs (repeat r n).

Definition star (r : re) : re := Rep 0 None r.
Definition plus (r : re) : re := Rep 1 None r.
Definition opt (r : re) : re := Rep 0 (Some 1%nat) r.

End Re.

Import Re.

(** ** [clean_product_name] *)

Module Cleaner.
Section Cleaner.
Context {U : Unicode}.

Definition RESIDUAL_WORDS : list (list Z) :=
  map py
    ["trumma"; "bobin"; "box"; "kartong"; "kapad";
     "svart"; "grön"; "gul"; "vit"; "röd"; "antracit"; "grå";
     "platt"; "plan"; "nej"; "ja"; "stål"; "plast"; "metall";
     "rörelsesensor"]%string.

Definition one_of (s : string) : Z -> bool := fun c => mem c (py s).
Definition between (lo hi : string) : Z -> bool :=
  fun c =>
    match py lo, py hi with
    | [a], [b] => (a <=? c) && (c <=? b)
    | _, _ => false
    end.

Definition ws : re := Cls isspace.       (* [\s] *)
Definition digit : re := Cls isdecimal.  (* [\d] *)
Definition l (s : string) : re := lit (py s).

(** ["Läs mer om produkterna på ahlsell\.se\s*"] *)
Definition filler_re : re :=
  Seq (l "Läs mer om produkterna på ahlsell.se") (star ws).

(** ["^(?:mm²|mm|cm|lm|kg|kN|kW|mAh?)\s+"] *)
Definition unit_re : re :=
  Seq (alts [l "mm²"; l "mm"; l "cm"; l "lm"; l "kg"; l "kN"; l "kW";
             Seq (l "mA") (opt (l "h"))])
      (plus ws).

(** ["^[\d\s,./xGX×:+-]+"
     "(?:mm²|mm|cm|m\b|kW|kN|W\b|V\b|A\b|°C|lm|kg|mAh|mA|K\b)"
     "[\d\s,.²/]*"] *)
Definition dim_re : re :=
  seqs [plus (Cls (fun c => isdecimal c || isspace c || one_of ",./xGX×:+-" c));
        alts [l "mm²"; l "mm"; l "cm"; Seq (l "m") WordB; l "kW"; l "kN";
              Seq (l "W") WordB; Seq (l "V") WordB; Seq (l "A") WordB;
              l "°C"; l "lm"; l "kg"; l "mAh"; l "mA"; Seq (l "K") WordB];
        star (Cls (fun c => isdecimal c || isspace c || one_of ",.²/" c))].

(** ["^(?:IP\d{2}|DC|AC)\s+"] *)
Definition rating_re : re :=
  Seq (alts [Seq (l "IP") (times 2 digit); l "DC"; l "AC"]) (plus ws).

(** ["^E\d{1,2}\s+[\d,.]+\s*W\s+\d+\s*K\s+"] *)
Definition lamp_re : re :=
  seqs [l "E"; Rep 1 (Some 2%nat) digit; plus ws;
        plus (Cls (fun c => isdecimal c || one_of ",." c)); star ws; l "W";
        plus ws; plus digit; star ws; l "K"; plus ws].

(** ["^(\d{1,4})\s+"] *)
Definition pageno_re : re :=
  Seq (Grp (Rep 1 (Some 4%nat) digit)) (plus ws).

(** ["^[A-Z]\s+"] *)
Definition capital_re : re := Seq (Cls (between "A" "Z")) (plus ws).

(** ["^[A-Za-z0-9][A-Za-z0-9/_.-]{0,20}"
     "(?:\s*\([^)]*\))?"
     "(?:\s+[\d,.]+\s*(?:V|A|W|mm²?|m)\b)*"
     "\s+"] *)
Definition code_re : re :=
  let an := fun c => between "A" "Z" c || between "a" "z" c || between "0" "9" c in
  seqs [Cls an;
        Rep 0 (Some 20%nat) (Cls (fun c => an c || one_of "/_.-" c));
        opt (seqs [star ws; l "("; star (Cls (fun c => negb (c =? 41))); l ")"]);
        star (seqs [plus ws; plus (Cls (fun c => isdecimal c || one_of ",." c));
                    star ws;
                    alts [l "V"; l "A"; l "W"; Seq (l "mm") (opt (l "²")); l "m"];
                    WordB]);
        plus ws].

(** ["([A-ZÅÄÖ][a-zåäö]{3,})"] *)
Definition first_word_re : re :=
  Grp (Seq (Cls (fun c => between "A" "Z" c || one_of "ÅÄÖ" c))
           (Rep 3 None (Cls (fun c => between "a" "z" c || one_of "åäö" c)))).

(** The [for word in RESIDUAL_WORDS] loop: the first word the lowered
    text starts with, followed by a space or a slash. *)
Fixpoint strip_residual (words : list (list Z)) (text : list Z) : option (list Z) :=
  match words with
  | [] => None
  | word :: words' =>
      if startswith (str_lower text) (word ++ py " ")
         || startswith (str_lower text) (word ++ py "/")
      then Some (lstrip_by (one_of " /") (drop (length word) text))
      else strip_residual words' text
  end.

(** The model/type code rule, tried when nothing else changed the text. *)
Definition strip_code (text : list Z) : option (list Z) :=
  match re_match code_re text with
  | Some m =>
      let rest_ := strip (rest m) in
      match re_match first_word_re rest_ with
      | Some fw =>
          if negb (existsb (str_eqb (str_lower (grp fw))) RESIDUAL_WORDS)
          then Some rest_ else None
      | None => None
      end
  | None => None
  end.

Definition cut_match (r : re) (text : list Z) : option (list Z) :=
  match re_match r text with
  | Some m => Some (rest m)      (* text[m.end():] *)
  | None => None
  end.

(** The body of the [while] loop on a stripped, non-empty text:
    [Some text'] when a rule set [changed], [None] otherwise. *)
Definition rules (text : list Z) : option (list Z) :=
  match cut_match unit_re text with Some t => Some t | None =>
  match cut_match dim_re text with Some t => Some t | None =>
  match cut_match rating_re text with Some t => Some t | None =>
  match cut_match lamp_re text with Some t => Some t | None =>
  match cut_match pageno_re text with Some t => Some t | None =>
  match text with
  | c :: text' =>
      if one_of ".!,;:" c then Some (lstrip text') else
      match cut_match capital_re text with Some t => Some t | None =>
      match strip_residual RESIDUAL_WORDS text with Some t => Some t | None =>
      strip_code text
      end end
  | [] => None
  end end end end end end.

(** [while changed and iterations < 50] *)
Fixpoint strip_loop (iterations : nat) (text : list Z) : list Z :=
  match iterations with
  | O => text
  | S n =>
      let text := strip text in
      match text with
      | [] => text
      | _ =>
          match rules text with
          | Some text' => strip_loop n text'
          | None => text
          end
      end
  end.

(** Text up to the first period, when it is beyond index 5. *)
Definition cut_period (text : list Z) : list Z :=
  match find_char 46 text with
  | Some period_idx => if (5 <? period_idx)%nat then strip (take period_idx text) else text
  | None => text
  end.

(** The [for word in words] loop of the truncation. *)
Fixpoint fit_words (words : list (list Z)) (length_ : nat) : list (list Z) :=
  match words with
  | [] => []
  | word :: words' =>
      if (150 <? length_ + length word + 1)%nat then []
      else word :: fit_words words' (length_ + length word + 1)
  end.

Definition truncate (text : list Z) : list Z :=
  if (150 <? length text)%nat
  then join (py " ") (fit_words (split_ws text) 0)
  else text.

Definition clean_product_name (raw_text : list Z) : list Z :=
  let text := strip raw_text in
  match text with
  | [] => []
  | _ =>
      let text := re_sub filler_re [] text in
      let text := strip_loop 50 text in
      let text := cut_period text in
      let text := truncate text in
      strip text
  end.

End Cleaner.
End Cleaner.

Import Cleaner.

(** ** [parse_catalog] *)

Record ProductRow : Type := Row {
  artikelnummer : list Z;
  benamning : list Z;
  kolumnrubriker : list Z;
  specifikationer : list Z
}.

Module Parser.
Section Parser.
Context {U : Unicode}.

Definition marker : list Z := py "Artikel Nr".

(** ["\b(\d{7})E?\b"] *)
Definition art_re : re := seqs [WordB; Grp (times 7 digit); opt (l "E"); WordB].

(** ["\s+"] *)
Definition spaces_re : re := plus ws.

(** ["\d*\s*Läs mer om produkterna på ahlsell\.se.*"]; [.] is any
    character but a newline. *)
Definition spec_filler_re : re :=
  seqs [star digit; star ws; l "Läs mer om produkterna på ahlsell.se";
        star (Cls (fun c => negb (c =? 10)))].

(** ["\b([A-ZÅÄÖ][a-zåäö]{4,})\b"] *)
Definition trim_re : re :=
  seqs [WordB;
        Grp (Seq (Cls (fun c => between "A" "Z" c || one_of "ÅÄÖ" c))
                 (Rep 4 None (Cls (fun c => between "a" "z" c || one_of "åäö" c))));
        WordB].

(** [s[a:b]] for [a <= b] *)
Definition slice (s : list Z) (a b : nat) : list Z := take (b - a) (drop a s).

(** [pages[1:-1] if len(pages) > 2 else pages] *)
Definition content_pages (pages : list (list Z)) : list (list Z) :=
  if (2 <? length pages)%nat then take (length pages - 2) (drop 1 pages) else pages.

(** The name source of a section: the text after its last article
    number, or the whole section. *)
Definition raw_name (name_section : list Z) : list Z :=
  let last_num_end :=
    fold_left (fun _ m => pos (snd m)) (finditer art_re name_section) 0%nat in
  drop last_num_end name_section.

(** The spec text between one article number and the next, collapsed
    and without the filler. *)
Definition spec_between (data_section : list Z) (spec_start spec_end : nat) : list Z :=
  let spec_text := strip (slice data_section spec_start spec_end) in
  let spec_text := strip (re_sub spaces_re (py " ") spec_text) in
  strip (re_sub spec_filler_re [] spec_text).

(** The trimming of the last article's spec text. *)
Definition trim_last (spec_text : list Z) : list Z :=
  if (30 <? length spec_text)%nat then
    match re_search trim_re spec_text with
    | Some (trim_start, _) =>
        let candidate := strip (take trim_start spec_text) in
        if (2 <=? length candidate)%nat then candidate else spec_text
    | None => spec_text
    end
  else spec_text.

(** The [for j, match in enumerate(art_matches)] loop. *)
Fixpoint article_rows (product_name col_headers data_section : list Z)
    (art_matches : list (nat * cur)) : list ProductRow :=
  match art_matches with
  | [] => []
  | (_, m) :: later =>
      let art_num := grp m in
      let spec_start := pos m in
      let spec_end :=
        match later with
        | (next_start, _) :: _ => next_start
        | [] => length data_section
        end in
      let spec_text := spec_between data_section spec_start spec_end in
      let spec_text :=
        match later with
        | [] => trim_last spec_text
        | _ :: _ => spec_text
        end in
      {| artikelnummer := art_num; benamning := product_name;
         kolumnrubriker := col_headers; specifikationer := spec_text |}
        :: article_rows product_name col_headers data_section later
  end.

Definition col_headers_of (data_section : list Z) (first_start : nat) : list Z :=
  strip (re_sub spaces_re (py " ") (strip (take first_start data_section))).

(** The state of the section loop: [last_good_name] and [results]. *)
Record pstate : Type := PState {
  last_good_name : list Z;
  results : list ProductRow
}.

(** One iteration of [for i in range(len(sections) - 1)]. *)
Definition parse_pair (st : pstate) (name_section data_section : list Z) : pstate :=
  let product_name := clean_product_name (raw_name name_section) in
  let '(product_name, lgn) :=
    if (length product_name <? 3)%nat
    then (last_good_name st, last_good_name st)
    else (product_name, product_name) in
  match finditer art_re data_section with
  | [] => {| last_good_name := lgn; results := results st |}      (* continue *)
  | ((first_start, _) :: _) as art_matches =>
      let col_headers := col_headers_of data_section first_start in
      {| last_good_name := lgn;
         results := results st
                    ++ article_rows product_name col_headers data_section art_matches |}
  end.

Fixpoint parse_loop (sections : list (list Z)) (st : pstate) : pstate :=
  match sections with
  | name_section :: ((data_section :: _) as later) =>
      parse_loop later (parse_pair st name_section data_section)
  | _ => st
  end.

Definition sections_of (pages : list (list Z)) : list (list Z) :=
  split_sep marker (join (py " ") (content_pages pages)).

Definition parse_catalog (pages : list (list Z)) : list ProductRow :=
  results (parse_loop (sections_of pages) {| last_good_name := []; results := [] |}).

End Parser.
End Parser.

(** ** De-duplication in [main] *)

Module Exporter.

(** [seen] is a Python [set] of article numbers, [unique] the list
    being appended to. *)
Fixpoint dedup_loop (results : list ProductRow) (seen : gset (list Z))
    (unique : list ProductRow) : list ProductRow :=
  match results with
  | [] => unique
  | row :: later =>
      if decide (artikelnummer row ∈ seen)
      then dedup_loop later seen unique
      else dedup_loop later ({[artikelnummer row]} ∪ seen) (unique ++ [row])
  end.

Definition deduplicate (results : list ProductRow) : list ProductRow :=
  dedup_loop results ∅ [].

End Exporter.

(** ** The arithmetic of [generate_invoice_text]

    The amounts are Python numbers ([float] in the application); the
    model is written over the operations it uses, with IEEE binary64
    and exact rationals as instances.  The layout of the text (the
    f-strings) is not modelled: an [invoice] holds the numbers the text
    prints. *)

Module Invoice.

Class Number (num : Type) := {
  zero : num;
  add : num -> num -> num;
  sub : num -> num -> num;
  mul : num -> num -> num;
  div : num -> num -> num;
  of_int : Z -> num;
  n1_25 : num;                 (* the literal [1.25] *)
  gt_zero : num -> bool        (* [x > 0] *)
}.

Section Invoice.
Context {num : Type} {N : Number num}.

(** An entry of [st.session_state.invoice_items]. *)
Record item : Type := Item {
  item_no : list Z;
  beskrivning : list Z;
  kategori : list Z;
  antal : num;
  enhet : list Z;
  pris_per_enhet : num;
  summa : num
}.

Definition ARBETE : list Z := py "ARBETE".

(** [calculate_rot_deduction(labor_cost_with_moms, rot_percentage=30)] *)
Definition calculate_rot_deduction (labor_cost_with_moms : num) (rot_percentage : Z) : num :=
  mul labor_cost_with_moms (div (of_int rot_percentage) (of_int 100)).

(** The accumulators of the item loop. *)
Record acc : Type := Acc {
  lines : list (num * num);       (* Belopp, Inkl moms of each printed line *)
  total_excl_moms : num;
  total_incl_moms : num;
  labor_total_incl_moms : num
}.

Definition item_step (a : acc) (it : item) : acc :=
  let belopp_excl_moms := summa it in
  let belopp_incl_moms := mul belopp_excl_moms n1_25 in
  {| lines := lines a ++ [(belopp_excl_moms, belopp_incl_moms)];
     total_excl_moms := add (total_excl_moms a) belopp_excl_moms;
     total_incl_moms := add (total_incl_moms a) belopp_incl_moms;
     labor_total_incl_moms :=
       if str_eqb (kategori it) ARBETE
       then add (labor_total_incl_moms a) belopp_incl_moms
       else labor_total_incl_moms a |}.

(** The numbers of the rendered invoice. *)
Record invoice : Type := Invoice_ {
  inv_lines : list (num * num);
  inv_total_excl : num;
  inv_total_incl : num;
  inv_rot : option num;           (* the ROT-AVDRAG line, when printed *)
  inv_total : num                 (* FAKTURA TOTAL *)
}.

Definition generate_invoice (invoice_items : list item) : invoice :=
  let a := fold_left item_step invoice_items
             {| lines := []; total_excl_moms := zero; total_incl_moms := zero;
                labor_total_incl_moms := zero |} in
  if gt_zero (labor_total_incl_moms a)
  then
    let rot_deduction := calculate_rot_deduction (labor_total_incl_moms a) 30 in
    {| inv_lines := lines a; inv_total_excl := total_excl_moms a;
       inv_total_incl := total_incl_moms a; inv_rot := Some rot_deduction;
       inv_total := sub (total_incl_moms a) rot_deduction |}
  else
    {| inv_lines := lines a; inv_total_excl := total_excl_moms a;
       inv_total_incl := total_incl_moms a; inv_rot := None;
       inv_total := total_incl_moms a |}.

End Invoice.

Arguments item : clear implicits.
Arguments invoice : clear implicits.

(** Python floats: IEEE 754 binary64. *)
Fixpoint float_of_pos (p : positive) : float :=
  match p with
  | xH => 1%float
  | xO p' => PrimFloat.mul 2%float (float_of_pos p')
  | xI p' => PrimFloat.add (PrimFloat.mul 2%float (float_of_pos p')) 1%float
  end.

Definition float_of_Z (z : Z) : float :=
  match z with
  | Z0 => 0%float
  | Zpos p => float_of_pos p
  | Zneg p => PrimFloat.opp (float_of_pos p)
  end.

#[export] Instance float_number : Number float := {|
  zero := 0%float;
  add := PrimFloat.add;
  sub := PrimFloat.sub;
  mul := PrimFloat.mul;
  div := PrimFloat.div;
  of_int := float_of_Z;
  n1_25 := 1.25%float;
  gt_zero := fun x => PrimFloat.ltb 0%float x
|}.

(** Exact arithmetic. *)
#[export] Instance Q_number : Number Q := {|
  zero := 0%Q;
  add := Qplus;
  sub := Qminus;
  mul := Qmult;
  div := Qdiv;
  of_int := inject_Z;
  n1_25 := (5 # 4)%Q;
  gt_zero := fun x => match (0 ?= x)%Q with Lt => true | _ => false end
|}.

End Invoice.

(** ** [add_to_invoice]

    A catalog row has a price that may be missing; a missing or zero
    price counts as [0.0].  [nonzero] is the truth value Python gives a
    number.  A null article number or category is modelled as the empty
    string, which the invoice treats alike: it prints [item_no or '']
    and only compares the category with ['ARBETE'].  The description
    and the unit are taken to be strings. *)

Module Cart.
Import Invoice.

Section Cart.
Context {num : Type} {N : Number num}.
Variable nonzero : num -> bool.

(** A row of the catalog table, as [search_items] returns it. *)
Record catalog_item : Type := CatalogItem {
  c_item_no : list Z;
  c_item : list Z;
  c_category : list Z;
  c_unit : list Z;
  c_price : option num
}.

(** [float(item['price']) if item['price'] else 0.0] *)
Definition price_of (it : catalog_item) : num :=
  match c_price it with
  | Some p => if nonzero p then p else zero
  | None => zero
  end.

(** [st.session_state.invoice_items.append(invoice_item)] *)
Definition add_to_invoice (invoice_items : list (item num)) (it : catalog_item)
    (quantity : num) : list (item num) :=
  invoice_items ++
  [{| item_no := c_item_no it;
      beskrivning := c_item it;
      kategori := c_category it;
      antal := quantity;
      enhet := c_unit it;
      pris_per_enhet := price_of it;
      summa := mul quantity (price_of it) |}].

End Cart.

Arguments catalog_item : clear implicits.

(** The truth value of a float: every value but [0.0] and [-0.0]. *)
Definition float_nonzero (x : float) : bool := negb (PrimFloat.eqb x 0%float).

End Cart.

(** * Notions of the specification

    What the properties below are stated with: the article-number
    format, the rows and the running name of a section pair, the
    position of the first period, the rows de-duplication keeps and
    the positions of the first occurrences, the sums of the invoice and
    the real number a float stands for. *)

Import Parser Exporter.

Section Notions.
Context {U : Unicode}.

(** Patterns without a capturing group leave group 1 as it is. *)
Fixpoint nogrp (r : re) : bool :=
  match r with
  | Grp _ => false
  | Seq r1 r2 | Alt r1 r2 => nogrp r1 && nogrp r2
  | Rep _ _ r1 => nogrp r1
  | Eps | Cls _ | WordB => true
  end.

(** A 7-digit article number, as [\d{7}] reads it. *)
Definition seven_digits (s : list Z) : Prop :=
  length s = 7%nat /\ forallb isdecimal s = true.

Definition well_numbered (row : ProductRow) : Prop :=
  artikelnummer row <> [] /\ seven_digits (artikelnummer row).

(** The rows a pair adds, given the name in force. *)
Definition pair_rows (product_name data_section : list Z) : list ProductRow :=
  match finditer art_re data_section with
  | [] => []
  | ((first_start, _) :: _) as art_matches =>
      article_rows product_name (col_headers_of data_section first_start)
        data_section art_matches
  end.

Definition cleaned_name (name_section : list Z) : list Z :=
  clean_product_name (raw_name name_section).

(** A cleaned name is accepted when it has at least 3 characters. *)
Definition accepted (name : list Z) : bool := (3 <=? length name)%nat.

Definition next_name (last_good : list Z) (name_section : list Z) : list Z :=
  if accepted (cleaned_name name_section) then cleaned_name name_section else last_good.

(** The name in force at pair [i]: the most recently accepted cleaned
    name among sections [0..i], or the initial value when there is
    none. *)
Definition running_name (init : list Z) (sections : list (list Z)) (i : nat) : list Z :=
  default init (last (List.filter accepted (map cleaned_name (take (S i) sections)))).

Definition period_early (s : list Z) : Prop :=
  forall i, find_char 46 s = Some i -> (i <= 5)%nat.

End Notions.

(** The rows the loop appends, given what has been seen. *)
Fixpoint keep (seen : gset (list Z)) (rows : list ProductRow) : list ProductRow :=
  match rows with
  | [] => []
  | row :: later =>
      if decide (artikelnummer row ∈ seen)
      then keep seen later
      else row :: keep ({[artikelnummer row]} ∪ seen) later
  end.

(** Row [i] of [rows] is [r], and no earlier row has its article number. *)
Definition first_occurrence (rows : list ProductRow) (i : nat) (r : ProductRow) : Prop :=
  rows !! i = Some r
  /\ forall j r', (j < i)%nat -> rows !! j = Some r' ->
                  artikelnummer r' <> artikelnummer r.

(** [out] reads [rows] at the positions of the first occurrences, all of
    them, in increasing order of position. *)
Definition first_occurrences_in_order (rows out : list ProductRow) : Prop :=
  exists idx : list nat,
    StronglySorted lt idx
    /\ (forall i, i ∈ idx <-> exists r, first_occurrence rows i r)
    /\ Forall2 (fun i r => rows !! i = Some r) idx out.

Module InvoiceNotions.
Import Invoice.
Section InvoiceNotions.
Context {num : Type} {N : Number num}.

(** The amount of a line with the 25 % surcharge. *)
Definition incl_moms (it : item num) : num := mul (summa it) n1_25.

(** A running sum in the order of the lines, as [+=] computes it. *)
Definition sum_of (amounts : list num) : num := fold_left add amounts zero.

Definition is_labor (it : item num) : bool := bool_decide (kategori it = ARBETE).

End InvoiceNotions.

(** [2^e] for any integer [e]. *)
Definition pow2 (e : Z) : Q :=
  match e with
  | Z0 => 1%Q
  | Zpos p => inject_Z (2 ^ Zpos p)
  | Zneg p => (1 # (2 ^ p))%Q
  end.

(** The real number a finite binary64 value stands for, in lowest
    terms; infinities and NaN stand for none. *)
Definition float_value (x : float) : option Q :=
  match FloatOps.Prim2SF x with
  | SpecFloat.S754_zero _ => Some 0%Q
  | SpecFloat.S754_finite s m e =>
      Some (Qred (inject_Z (if s then Zneg m else Zpos m) * pow2 e))
  | SpecFloat.S754_infinity _ | SpecFloat.S754_nan => None
  end.

(** The exact sum of a list of rationals. *)
Definition Qsum (amounts : list Q) : Q := fold_right Qplus 0%Q amounts.

End InvoiceNotions.

(** ** Notions of the further properties *)

Section FurtherNotions.
Context {U : Unicode}.

(** From [c] the matcher reached [c'] by reading the characters [w]. *)
Definition consumed_to (c c' : cur) : Prop :=
  exists w, rest c = w ++ rest c' /\ pos c' = (pos c + length w)%nat.

(** A pattern that cannot match the empty string. *)
Fixpoint nonempty (r : re) : bool :=
  match r with
  | Eps | WordB => false
  | Cls _ => true
  | Seq r1 r2 => nonempty r1 || nonempty r2
  | Alt r1 r2 => nonempty r1 && nonempty r2
  | Rep lo _ _ => (1 <=? lo)%nat
  | Grp r1 => nonempty r1
  end.

(** The position [c] is a position of the text [s]. *)
Definition at_pos (s : list Z) (c : cur) : Prop :=
  rest c = drop (pos c) s /\ (pos c <= length s)%nat.

(** Matches from [at_] on, left to right, none empty, none
    overlapping, all inside the text. *)
Fixpoint ordered_from (s : list Z) (at_ : nat) (ms : list (nat * cur)) : Prop :=
  match ms with
  | [] => True
  | (st, c') :: ms' =>
      (at_ <= st)%nat /\ (st < pos c')%nat /\ (pos c' <= length s)%nat
      /\ ordered_from s (pos c') ms'
  end.

Definition stripped (s : list Z) : Prop := strip s = s.

(** A running name is empty or an accepted cleaned name. *)
Definition name_ok (name : list Z) : Prop :=
  stripped name /\ (name = [] \/ (3 <= length name <= 150)%nat).

Definition row_ok (row : ProductRow) : Prop :=
  name_ok (benamning row) /\ stripped (kolumnrubriker row)
  /\ stripped (specifikationer row).

End FurtherNotions.

(** ** Sample inputs *)

Module Samples.
Import Latin1 Invoice.

Definition cable : list Z := py "10 mm² 3x1,5 Kabel XYZ123 Skarvdosa".

(** ["." * 51 + "Kabel"]: one period is stripped per iteration, and the
    loop stops after 50. *)
Definition dotted : list Z := repeat 46 51 ++ py "Kabel".

(** The filler phrase, split around a copy of itself. *)
Definition nested_filler : list Z :=
  py "x.Läs mer om produkterLäs mer om produkterna på ahlsell.sena på ahlsell.se".

Definition st0 : pstate := {| last_good_name := []; results := [] |}.

(** The document of the specification, and the same with the suffix
    [E] instead of [A]. *)
Definition widget_doc_A : list Z :=
  py "... 1234567 FooWidget ... Artikel Nr Size Color 1234567A 10 mm red Artikel Nr ...".
Definition widget_doc_E : list Z :=
  py "... 1234567 FooWidget ... Artikel Nr Size Color 1234567E 10 mm red Artikel Nr ...".

Definition widget_row : ProductRow :=
  {| artikelnummer := py "1234567"; benamning := py "FooWidget";
     kolumnrubriker := py "Size Color"; specifikationer := py "10 mm red" |}.

(** A data section without article numbers between a named section
    and a table. *)
Definition skipped_doc : list Z :=
  py "Kabelskydd Artikel Nr -- Artikel Nr Hdr 1234567 spec".

(** A last article whose spec text starts with a capitalised word. *)
Definition capital_first_doc : list Z :=
  py "X Artikel Nr Hdr 1234567 Kabelskydd för montering i vägg och tak Artikel Nr".
Definition capital_first_spec : list Z :=
  py "Kabelskydd för montering i vägg och tak".

(** A last article followed by the text of the next product. *)
Definition trailing_data : list Z :=
  py " Hdr 1234567 10 mm 2 st 3 kg 4 m 5 W 6 V 7 A 8 Kabelskydd för vägg".
Definition trailing_match : cur :=
  {| prev := Some 55;
     rest := py " 10 mm 2 st 3 kg 4 m 5 W 6 V 7 A 8 Kabelskydd för vägg";
     pos := 12; grp := py "1234567" |}.

(** Rows with repeated article numbers. *)
Definition row_of (number name : string) : ProductRow :=
  {| artikelnummer := py number; benamning := py name;
     kolumnrubriker := []; specifikationer := [] |}.

Definition repeated_rows : list ProductRow :=
  [row_of "1111111" "a"; row_of "2222222" "b"; row_of "1111111" "c"; row_of "3333333" "d"; row_of "2222222" "e"].

(** An invoice line of a category with an amount. *)
Definition line {num : Type} (category : string) (amount : num) (one : num) : item num :=
  {| item_no := []; beskrivning := []; kategori := py category; antal := one;
     enhet := []; pris_per_enhet := amount; summa := amount |}.

End Samples.

(** ** Sample inputs for the further properties *)

Module FurtherSamples.
Import Latin1 Invoice Cart Samples.

(** A space, a tab and a newline. *)
Definition blank : list Z := [32; 9; 10].

(** A data section with two article numbers, and the first match. *)
Definition two_numbers : list Z := py " 1234567 a 7654321E b".
Definition first_number : cur :=
  {| prev := Some 55; rest := py " a 7654321E b"; pos := 8; grp := py "1234567" |}.

Definition distinct_rows : list ProductRow :=
  [row_of "1111111" "a"; row_of "2222222" "b"; row_of "3333333" "c"].

(** An invoice with one hour of labour, one with material only, and a
    catalog article of another category. *)
Definition labor_cart : list (item float) := [line "ARBETE" 1000%float 1%float].
Definition material_cart : list (item float) := [line "MATERIAL" 200%float 1%float].
Definition pipe : catalog_item float :=
  {| c_item_no := py "2405276"; c_item := py "Kopparror"; c_category := py "MATERIAL";
     c_unit := py "m"; c_price := Some 200%float |}.

End FurtherSamples.

(** * Properties *)

Import Latin1.

(** ** Facts about the [str] methods *)

Section StrFacts.
Context {U : Unicode}.

Lemma lstrip_by_length p s : (length (lstrip_by p s) <= length s)%nat.
Proof.
  induction s as [|x s IH]; simpl; [lia|].
  destruct (p x); simpl; lia.
Qed.

Lemma rstrip_by_length p s : (length (rstrip_by p s) <= length s)%nat.
Proof.
  induction s as [|x s IH]; simpl; [lia|].
  destruct (rstrip_by p s) eqn:E; [destruct (p x)|]; simpl in *; lia.
Qed.

Lemma strip_length s : (length (strip s) <= length s)%nat.
Proof.
  unfold strip.
  etransitivity; [apply rstrip_by_length | apply lstrip_by_length].
Qed.

(** A text that [lstrip] leaves alone starts with a character outside
    the set, and [rstrip] keeps that start. *)
Lemma lstrip_by_head p s x t : lstrip_by p s = x :: t -> p x = false.
Proof.
  induction s as [|y s IH]; simpl; [discriminate|].
  destruct (p y) eqn:E; [exact IH|]. intros [= <- _]. exact E.
Qed.

Lemma rstrip_by_cons p x t :
  p x = false -> exists t', rstrip_by p (x :: t) = x :: t'.
Proof.
  intros Hx. simpl. destruct (rstrip_by p t); [rewrite Hx|]; eauto.
Qed.

Lemma lstrip_by_fix p x t : p x = false -> lstrip_by p (x :: t) = x :: t.
Proof. intros Hx. simpl. now rewrite Hx. Qed.

Lemma rstrip_by_idem p s : rstrip_by p (rstrip_by p s) = rstrip_by p s.
Proof.
  induction s as [|x s IH]; simpl; [reflexivity|].
  destruct (rstrip_by p s) as [|y r] eqn:E.
  - destruct (p x) eqn:Ex; simpl; [reflexivity | now rewrite Ex].
  - change (rstrip_by p (x :: y :: r)) with
      (match rstrip_by p (y :: r) with
       | [] => if p x then [] else [x]
       | r0 => x :: r0
       end).
    now rewrite IH.
Qed.

Lemma strip_idem s : strip (strip s) = strip s.
Proof.
  unfold strip.
  destruct (lstrip_by isspace s) as [|x t] eqn:E; [reflexivity|].
  pose proof (lstrip_by_head _ _ _ _ E) as Hx.
  destruct (rstrip_by_cons isspace x t Hx) as [t' Ht'].
  rewrite Ht', (lstrip_by_fix _ _ _ Hx), <- Ht'.
  apply rstrip_by_idem.
Qed.

Lemma join_cons sep p ps :
  ps <> [] -> join sep (p :: ps) = p ++ sep ++ join sep ps.
Proof. destruct ps; [congruence | reflexivity]. Qed.

End StrFacts.

(** ** The name cleaner *)

Section CleanerFacts.
Context {U : Unicode}.

Lemma fit_words_length words n :
  fit_words words n <> [] ->
  (n + length (join (py " ") (fit_words words n)) + 1 <= 150)%nat.
Proof.
  revert n. induction words as [|w words IH]; intros n; simpl; [congruence|].
  destruct (150 <? n + length w + 1)%nat eqn:E; [congruence|].
  apply Nat.ltb_ge in E. intros _.
  destruct (fit_words words (n + length w + 1)) as [|w' r] eqn:Er.
  - simpl. lia.
  - rewrite join_cons by congruence.
    specialize (IH (n + length w + 1)%nat). rewrite Er in IH.
    rewrite !length_app. change (length (py " ")) with 1%nat.
    assert (w' :: r <> []) as Hne by congruence.
    specialize (IH Hne). lia.
Qed.

Lemma truncate_length text : (length (truncate text) <= 150)%nat.
Proof.
  unfold truncate. destruct (150 <? length text)%nat eqn:E.
  - destruct (fit_words (split_ws text) 0) eqn:Er; [simpl; lia|].
    rewrite <- Er.
    assert (fit_words (split_ws text) 0 <> []) as Hne by (rewrite Er; congruence).
    pose proof (fit_words_length _ _ Hne). lia.
  - apply Nat.ltb_ge in E. lia.
Qed.

Lemma clean_product_name_length raw_text :
  (length (clean_product_name raw_text) <= 150)%nat.
Proof.
  unfold clean_product_name.
  destruct (strip raw_text); [simpl; lia|].
  etransitivity; [apply strip_length | apply truncate_length].
Qed.

(** C7: whatever the input, the cleaned name has at most 150
    characters. *)
Theorem clean_product_name_at_most_150 (raw_text : list Z) :
  (length (clean_product_name raw_text) <= 150)%nat.
Proof. apply clean_product_name_length. Qed.

End CleanerFacts.

(** *** Where the first period of a cleaned name can be *)

Section Period.
Context {U : Unicode}.

Lemma find_char_app c a b :
  find_char c (a ++ b) =
  match find_char c a with
  | Some i => Some i
  | None => option_map (fun j => (length a + j)%nat) (find_char c b)
  end.
Proof.
  induction a as [|x a IH]; simpl.
  - destruct (find_char c b); reflexivity.
  - destruct (x =? c); [reflexivity|].
    rewrite IH. destruct (find_char c a); simpl; [reflexivity|].
    destruct (find_char c b); reflexivity.
Qed.

Lemma find_char_take c s i : find_char c s = Some i -> find_char c (take i s) = None.
Proof.
  revert i. induction s as [|x s IH]; intros i; simpl; [discriminate|].
  destruct (x =? c) eqn:E.
  - intros [= <-]. reflexivity.
  - destruct (find_char c s) as [j|] eqn:Ej; simpl; [|discriminate].
    intros [= <-]. simpl. rewrite E. now rewrite (IH j eq_refl).
Qed.

Lemma find_char_lstrip_by p c s j :
  p c = false -> find_char c (lstrip_by p s) = Some j ->
  exists i, find_char c s = Some i /\ (j <= i)%nat.
Proof.
  intros Hc. induction s as [|x s IH]; simpl; [discriminate|].
  destruct (p x) eqn:Ex.
  - intros Hj. destruct (IH Hj) as (i & Hi & Hle).
    destruct (Z.eqb_spec x c) as [->|_]; [congruence|].
    rewrite Hi. simpl. exists (S i). split; [reflexivity | lia].
  - simpl. intros Hj. exists j. split; [exact Hj | lia].
Qed.

Lemma rstrip_by_prefix p s : exists t, s = rstrip_by p s ++ t.
Proof.
  induction s as [|x s [t Ht]]; simpl; [exists []; reflexivity|].
  destruct (rstrip_by p s) as [|y r] eqn:E.
  - destruct (p x); [exists (x :: s) | exists s]; reflexivity.
  - exists t. simpl. f_equal. exact Ht.
Qed.

Lemma find_char_rstrip_by p c s j :
  find_char c (rstrip_by p s) = Some j -> find_char c s = Some j.
Proof.
  intros Hj. destruct (rstrip_by_prefix p s) as [t Ht].
  rewrite Ht, find_char_app, Hj. reflexivity.
Qed.

Lemma isspace_period : isspace 46 = false.
Proof. rewrite isspace_ascii by lia. reflexivity. Qed.

Lemma find_period_strip s j :
  find_char 46 (strip s) = Some j ->
  exists i, find_char 46 s = Some i /\ (j <= i)%nat.
Proof.
  unfold strip. intros Hj. apply find_char_rstrip_by in Hj.
  exact (find_char_lstrip_by _ _ _ _ isspace_period Hj).
Qed.

Lemma fit_words_take words n : exists k, fit_words words n = take k words.
Proof.
  revert n. induction words as [|w words IH]; intros n; simpl.
  - exists 0%nat. reflexivity.
  - destruct (150 <? n + length w + 1)%nat.
    + exists 0%nat. reflexivity.
    + destruct (IH (n + length w + 1)%nat) as [k Hk].
      exists (S k). simpl. now rewrite Hk.
Qed.

(** Joining the first words of a text with single spaces does not move
    the first period to the right. *)
Lemma find_period_join_split s : forall cur k j,
  find_char 46 (join (py " ") (take k (split_ws_aux cur s))) = Some j ->
  exists i, find_char 46 (rev cur ++ s) = Some i /\ (j <= i)%nat.
Proof.
  induction s as [|x s IH]; intros cur k j; cbn [split_ws_aux].
  - rewrite app_nil_r. destruct cur as [|c cur].
    + destruct k; simpl; discriminate.
    + destruct k as [|[|k]]; [simpl; discriminate| |];
        cbn [take join]; intros Hj; eauto.
  - destruct (isspace x) eqn:Ex.
    + assert ((x =? 46) = false) as Hx.
      { destruct (Z.eqb_spec x 46) as [->|]; [|reflexivity].
        rewrite isspace_period in Ex. discriminate. }
      assert (forall w, find_char 46 (w ++ x :: s) =
                match find_char 46 w with
                | Some i => Some i
                | None => option_map (fun j => (length w + S j)%nat) (find_char 46 s)
                end) as Hfind.
      { intros w. rewrite find_char_app. cbn [find_char]. rewrite Hx.
        destruct (find_char 46 w); [reflexivity|].
        destruct (find_char 46 s); reflexivity. }
      assert (forall k' j0,
                find_char 46 (join (py " ") (take k' (split_ws_aux [] s))) = Some j0 ->
                exists i, find_char 46 s = Some i /\ (j0 <= i)%nat) as IH0.
      { intros k' j0 Hj. exact (IH [] k' j0 Hj). }
      destruct cur as [|c cur].
      * intros Hj. destruct (IH0 k j Hj) as (i & Hi & Hle).
        rewrite Hfind, Hi. simpl. exists (S i). split; [reflexivity | lia].
      * set (w := rev (c :: cur)). rewrite Hfind.
        destruct k as [|k]; [simpl; discriminate|].
        cbn [take].
        destruct (take k (split_ws_aux [] s)) as [|w' r] eqn:Er.
        -- cbn [join]. intros Hj. rewrite Hj. exists j. split; [reflexivity | lia].
        -- rewrite join_cons by congruence. rewrite <- Er.
           rewrite !find_char_app.
           destruct (find_char 46 w) as [i0|] eqn:E0.
           ++ intros [= <-]. exists i0. split; [reflexivity | lia].
           ++ change (find_char 46 (py " ")) with (@None nat).
              change (length (py " ")) with 1%nat.
              destruct (find_char 46 (join (py " ") (take k (split_ws_aux [] s))))
                as [j'|] eqn:Ej'; simpl; [|discriminate].
              intros [= <-].
              destruct (IH0 k j' Ej') as (i & Hi & Hle).
              rewrite Hi. simpl. eexists. split; [reflexivity | lia].
    + intros Hj. destruct (IH (x :: cur) k j Hj) as (i & Hi & Hle).
      simpl in Hi. rewrite <- app_assoc in Hi. simpl in Hi.
      exists i. split; [exact Hi | exact Hle].
Qed.

Lemma period_early_strip s : period_early s -> period_early (strip s).
Proof.
  intros Hs j Hj. destruct (find_period_strip _ _ Hj) as (i & Hi & Hle).
  specialize (Hs i Hi). lia.
Qed.

Lemma period_early_truncate s : period_early s -> period_early (truncate s).
Proof.
  intros Hs. unfold truncate. destruct (150 <? length s)%nat; [|exact Hs].
  intros j Hj. unfold split_ws in Hj.
  destruct (fit_words_take (split_ws_aux [] s) 0) as [k Hk]. rewrite Hk in Hj.
  destruct (find_period_join_split _ _ _ _ Hj) as (i & Hi & Hle).
  simpl in Hi. specialize (Hs i Hi). lia.
Qed.

Lemma period_early_cut s : period_early (cut_period s).
Proof.
  unfold cut_period. destruct (find_char 46 s) as [i|] eqn:E.
  - destruct (5 <? i)%nat eqn:E5.
    + intros j Hj. destruct (find_period_strip _ _ Hj) as (i' & Hi' & _).
      rewrite (find_char_take _ _ _ E) in Hi'. discriminate.
    + apply Nat.ltb_ge in E5. intros j Hj. rewrite E in Hj.
      injection Hj as <-. exact E5.
  - intros j Hj. rewrite E in Hj. discriminate.
Qed.

Lemma period_early_clean raw_text : period_early (clean_product_name raw_text).
Proof.
  unfold clean_product_name. destruct (strip raw_text).
  - intros i Hi. discriminate.
  - apply period_early_strip, period_early_truncate, period_early_cut.
Qed.

Lemma cut_period_early s : period_early s -> cut_period s = s.
Proof.
  intros Hs. unfold cut_period. destruct (find_char 46 s) as [i|] eqn:E; [|reflexivity].
  specialize (Hs i E). apply Nat.ltb_ge in Hs. now rewrite Hs.
Qed.

Lemma strip_clean raw_text :
  strip (clean_product_name raw_text) = clean_product_name raw_text.
Proof.
  unfold clean_product_name. destruct (strip raw_text); [reflexivity|].
  apply strip_idem.
Qed.

End Period.

Section Idempotence.
Context {U : Unicode}.

Lemma re_sub_no_match r repl s : finditer r s = [] -> re_sub r repl s = s.
Proof. unfold re_sub. intros ->. reflexivity. Qed.

Lemma truncate_short s : (length s <= 150)%nat -> truncate s = s.
Proof.
  intros Hs. unfold truncate. apply Nat.ltb_ge in Hs. now rewrite Hs.
Qed.

Lemma strip_loop_settled n s :
  strip s = s -> rules s = None -> strip_loop (S n) s = s.
Proof.
  intros Hs Hr. cbn [strip_loop]. rewrite Hs. destruct s; [reflexivity|].
  now rewrite Hr.
Qed.

(** C6, as amended: cleaning a cleaned name again gives the same name
    whenever that name holds no filler phrase and no stripping rule
    applies to it. *)
Theorem clean_product_name_idempotent_when_settled (raw_text : list Z) :
  finditer filler_re (clean_product_name raw_text) = [] ->
  rules (clean_product_name raw_text) = None ->
  clean_product_name (clean_product_name raw_text) = clean_product_name raw_text.
Proof.
  intros Hfiller Hrules.
  pose proof (strip_clean raw_text) as Hstrip.
  pose proof (period_early_clean raw_text) as Hperiod.
  pose proof (clean_product_name_length raw_text) as Hlen.
  set (r := clean_product_name raw_text) in *.
  unfold clean_product_name at 1. rewrite Hstrip.
  destruct r as [|c r'] eqn:Er; [reflexivity|]. rewrite <- Er in *.
  rewrite (re_sub_no_match _ _ _ Hfiller).
  rewrite (strip_loop_settled _ _ Hstrip Hrules).
  rewrite (cut_period_early _ Hperiod).
  rewrite (truncate_short _ Hlen).
  exact Hstrip.
Qed.

End Idempotence.

(** *** Concrete names *)

Module CleanerExamples.
Import Samples.

Example clean_dotted_once : clean_product_name dotted = py ".Kabel".
Proof. vm_compute. reflexivity. Qed.

Example clean_dotted_twice :
  clean_product_name (clean_product_name dotted) = py "Kabel".
Proof. vm_compute. reflexivity. Qed.

(** C6, counterexample: after 50 iterations one period is left, which
    a second call removes. *)
Lemma clean_product_name_not_idempotent :
  clean_product_name (clean_product_name dotted) <> clean_product_name dotted.
Proof. vm_compute. discriminate. Qed.

(** Removing the filler phrase once can leave a filler phrase behind. *)
Example clean_nested_filler :
  clean_product_name nested_filler = py "x.Läs mer om produkterna på ahlsell.se"
  /\ clean_product_name (clean_product_name nested_filler) = py "x.".
Proof. split; vm_compute; reflexivity. Qed.

Lemma clean_product_name_idempotent_witness :
  finditer filler_re (clean_product_name cable) = []
  /\ rules (clean_product_name cable) = None
  /\ clean_product_name (clean_product_name cable) = clean_product_name cable.
Proof.
  assert (finditer filler_re (clean_product_name cable) = []) as H1
    by (vm_compute; reflexivity).
  assert (rules (clean_product_name cable) = None) as H2
    by (vm_compute; reflexivity).
  split; [exact H1 | split; [exact H2 |]].
  exact (clean_product_name_idempotent_when_settled cable H1 H2).
Defined.

(** C8, as amended: the leading ["10 mm² 3"] is stripped and the name
    returned is ["x1,5 Kabel XYZ123 Skarvdosa"]; it starts with neither
    a digit nor a unit token. *)
Theorem clean_cable_name :
  clean_product_name cable = py "x1,5 Kabel XYZ123 Skarvdosa"
  /\ (forall c, head (clean_product_name cable) = Some c -> isdecimal c = false)
  /\ re_match unit_re (clean_product_name cable) = None
  /\ re_match dim_re (clean_product_name cable) = None.
Proof.
  assert (clean_product_name cable = py "x1,5 Kabel XYZ123 Skarvdosa") as E
    by (vm_compute; reflexivity).
  rewrite E. repeat split; try (vm_compute; reflexivity).
  intros c [= <-]. reflexivity.
Qed.

(** C8, counterexample: the name does not begin at ["Kabel"] or later. *)
Lemma clean_cable_name_not_from_Kabel :
  ~ clean_product_name cable `suffix_of` py "Kabel XYZ123 Skarvdosa".
Proof.
  intros [k Hk]. apply (f_equal length) in Hk. rewrite length_app in Hk.
  assert (length (clean_product_name cable) = 27%nat) as E
    by (vm_compute; reflexivity).
  assert (length (py "Kabel XYZ123 Skarvdosa") = 22%nat) as E'
    by (vm_compute; reflexivity).
  rewrite E, E' in Hk. lia.
Qed.

End CleanerExamples.

(** ** Facts about the matcher *)

Section EngineFacts.
Context {U : Unicode}.

Lemma rep_loop_grp {A : Type} body lo hi (k : cur -> option A) :
  (forall c k' a, body c k' = Some a -> exists c', k' c' = Some a /\ grp c' = grp c) ->
  forall fuel i c0 a,
    rep_loop body lo hi k fuel i c0 = Some a ->
    exists c', k c' = Some a /\ grp c' = grp c0.
Proof.
  intros Hbody. induction fuel as [|f IH]; intros i c0 a; cbn [rep_loop].
  - destruct (lo <=? i)%nat; [eauto | discriminate].
  - assert ((if (lo <=? i)%nat then k c0 else None) = Some a ->
            exists c', k c' = Some a /\ grp c' = grp c0) as Hstop.
    { destruct (lo <=? i)%nat; [eauto | discriminate]. }
    destruct (below hi i); [|exact Hstop].
    destruct (body c0 _) as [a0|] eqn:E; [|exact Hstop].
    intros [= ->]. apply Hbody in E. destruct E as (c1 & E & Hg).
    destruct (pos c0 <? pos c1)%nat; [|discriminate].
    apply IH in E. destruct E as (c' & E & Hg'). exists c'. split; congruence.
Qed.

Lemma mt_nogrp {A : Type} r : nogrp r = true ->
  forall c (k : cur -> option A) a,
    mt r c k = Some a -> exists c', k c' = Some a /\ grp c' = grp c.
Proof.
  induction r as [|p| |r1 IH1 r2 IH2|r1 IH1 r2 IH2|lo hi r1 IH1|r1 IH1];
    cbn [nogrp mt]; intros Hn c k a.
  - eauto.
  - destruct (rest c) as [|x t]; [discriminate|].
    destruct (p x); [|discriminate]. intros H. eexists. split; [exact H | reflexivity].
  - destruct (at_boundary c); [eauto | discriminate].
  - apply andb_prop in Hn as [Hn1 Hn2]. intros H.
    apply (IH1 Hn1) in H. destruct H as (c1 & H & Hg).
    apply (IH2 Hn2) in H. destruct H as (c2 & H & Hg2).
    exists c2. split; congruence.
  - apply andb_prop in Hn as [Hn1 Hn2].
    destruct (mt r1 c k) as [a0|] eqn:E.
    + intros [= ->]. exact (IH1 Hn1 _ _ _ E).
    + exact (IH2 Hn2 _ _ _).
  - apply rep_loop_grp. intros c1 k' a'. exact (IH1 Hn c1 k' a').
  - discriminate.
Qed.

Lemma mt_Seq {A : Type} r1 r2 c (k : cur -> option A) :
  mt (Seq r1 r2) c k = mt r1 c (fun c' => mt r2 c' k).
Proof. reflexivity. Qed.

Lemma mt_WordB {A : Type} c (k : cur -> option A) :
  mt WordB c k = if at_boundary c then k c else None.
Proof. reflexivity. Qed.

Lemma mt_Grp {A : Type} r c (k : cur -> option A) :
  mt (Grp r) c k =
  mt r c (fun c' => k {| prev := prev c'; rest := rest c'; pos := pos c';
                         grp := take (pos c' - pos c) (rest c) |}).
Proof. reflexivity. Qed.

(** [p{n}] consumes [n] characters of the class [p]. *)
Lemma mt_times_cls {A : Type} p n :
  forall c (k : cur -> option A) a,
    mt (times n (Cls p)) c k = Some a ->
    exists w c', rest c = w ++ rest c' /\ length w = n /\ forallb p w = true
                 /\ pos c' = (pos c + n)%nat /\ grp c' = grp c /\ k c' = Some a.
Proof.
  assert (forall c (k : cur -> option A) a, mt (Cls p) c k = Some a ->
            exists x c', rest c = x :: rest c' /\ p x = true
                         /\ pos c' = S (pos c) /\ grp c' = grp c /\ k c' = Some a) as Hone.
  { intros c k a. cbn [mt]. destruct (rest c) as [|x t]; [discriminate|].
    destruct (p x) eqn:E; [|discriminate]. intros H.
    exists x, {| prev := Some x; rest := t; pos := S (pos c); grp := grp c |}.
    cbn. repeat split; [exact E | exact H]. }
  induction n as [|n IH]; intros c k a.
  - cbn. intros H. exists [], c. repeat split; [lia | exact H].
  - destruct n as [|n'].
    + cbn [times repeat seqs]. intros H. apply Hone in H.
      destruct H as (x & c' & Hr & Hp & Hpos & Hg & Hk).
      exists [x], c'. cbn. rewrite Hp. repeat split; try assumption. lia.
    + change (times (S (S n')) (Cls p)) with (Seq (Cls p) (times (S n') (Cls p))).
      rewrite mt_Seq. intros H. apply Hone in H.
      destruct H as (x & c1 & Hr & Hp & Hpos & Hg & Hk).
      apply IH in Hk. destruct Hk as (w & c' & Hr' & Hl & Hw & Hpos' & Hg' & Hk).
      exists (x :: w), c'. cbn [forallb length app]. rewrite Hp, Hw, Hr, Hr'.
      repeat split; try assumption; try lia; congruence.
Qed.

End EngineFacts.

(** ** The section parser *)

Section ArticleNumbers.
Context {U : Unicode}.

Lemma art_re_group c m : match_at art_re c = Some m -> seven_digits (grp m).
Proof.
  unfold match_at, art_re. cbn [seqs]. rewrite mt_Seq, mt_WordB.
  destruct (at_boundary _); [|discriminate].
  rewrite mt_Seq, mt_Grp. unfold digit.
  intros H. apply mt_times_cls in H.
  destruct H as (w & c' & Hr & Hl & Hw & Hpos & _ & H).
  cbn [rest pos prev] in *.
  apply (mt_nogrp (Seq (opt (l "E")) WordB) eq_refl) in H.
  destruct H as (c2 & [= <-] & Hg). rewrite Hg. cbn [grp].
  replace (pos c' - pos c)%nat with (length w) by lia.
  rewrite Hr, take_app_length. split; assumption.
Qed.

Lemma search_from_art r pv s p st m :
  search_from r pv s p = Some (st, m) ->
  exists c, match_at r c = Some m.
Proof.
  revert pv p. induction s as [|x s IH]; intros pv p; cbn [search_from].
  - destruct (match_at r _) eqn:E; [|discriminate]. intros [= <- <-]. eauto.
  - destruct (match_at r _) eqn:E; [intros [= <- <-]; eauto|]. apply IH.
Qed.

Lemma finditer_from_matches r fuel c :
  Forall (fun sm => exists c0, match_at r c0 = Some (snd sm)) (finditer_from fuel r c).
Proof.
  revert c. induction fuel as [|f IH]; intros c; cbn [finditer_from]; [constructor|].
  destruct (search_from r _ _ _) as [[st m]|] eqn:E; [|constructor].
  destruct (st <? pos m)%nat; [|constructor].
  constructor; [|apply IH]. exact (search_from_art _ _ _ _ _ _ E).
Qed.

Lemma finditer_art_groups s :
  Forall (fun sm => seven_digits (grp (snd sm))) (finditer art_re s).
Proof.
  eapply Forall_impl; [apply finditer_from_matches|].
  intros sm [c0 H]. exact (art_re_group _ _ H).
Qed.

End ArticleNumbers.

Section Rows.
Context {U : Unicode}.

Lemma seven_digits_nonempty s : seven_digits s -> s <> [].
Proof. intros [Hl _] ->. discriminate. Qed.

Lemma article_rows_numbers product_name col_headers data_section art_matches :
  Forall (fun sm => seven_digits (grp (snd sm))) art_matches ->
  Forall well_numbered
    (article_rows product_name col_headers data_section art_matches).
Proof.
  induction 1 as [|[st m] later Hm _ IH]; cbn [article_rows]; constructor.
  - split; [apply seven_digits_nonempty|]; exact Hm.
  - exact IH.
Qed.

Lemma parse_pair_spec st name_section data_section :
  parse_pair st name_section data_section =
  {| last_good_name := next_name (last_good_name st) name_section;
     results := results st
                ++ pair_rows (next_name (last_good_name st) name_section) data_section |}.
Proof.
  unfold parse_pair, pair_rows, next_name, accepted, cleaned_name.
  destruct (Nat.ltb_spec (length (clean_product_name (raw_name name_section))) 3);
    destruct (Nat.leb_spec 3 (length (clean_product_name (raw_name name_section))));
    try lia;
    destruct (finditer art_re data_section) as [|[st0 m0] later];
    rewrite ?app_nil_r; reflexivity.
Qed.

Lemma pair_rows_numbers product_name data_section :
  Forall well_numbered (pair_rows product_name data_section).
Proof.
  unfold pair_rows. pose proof (finditer_art_groups data_section) as H.
  destruct (finditer art_re data_section) as [|[st m] later]; [constructor|].
  apply article_rows_numbers, H.
Qed.

Lemma parse_loop_numbers sections : forall st,
  Forall well_numbered (results st) ->
  Forall well_numbered (results (parse_loop sections st)).
Proof.
  induction sections as [|s later IH]; intros st Hst; [exact Hst|].
  destruct later as [|d later]; [exact Hst|].
  change (parse_loop (s :: d :: later) st)
    with (parse_loop (d :: later) (parse_pair st s d)).
  apply IH. rewrite parse_pair_spec. cbn [results].
  apply Forall_app. split; [exact Hst | apply pair_rows_numbers].
Qed.

(** C4: every row that [parse_catalog] emits has a non-empty article
    number made of exactly 7 decimal digits (the characters [\d]
    matches). *)
Theorem parse_catalog_article_numbers (pages : list (list Z)) :
  Forall (fun row =>
            artikelnummer row <> []
            /\ length (artikelnummer row) = 7%nat
            /\ forallb isdecimal (artikelnummer row) = true)
         (parse_catalog pages).
Proof.
  unfold parse_catalog.
  eapply Forall_impl; [apply parse_loop_numbers; constructor|].
  intros row (Hne & Hl & Hd). auto.
Qed.

(** C1, as amended: a pair whose data section holds no article number
    adds no rows, and the running name is updated as for any other
    pair: it becomes the cleaned name of the pair's name section when
    that has at least 3 characters, and stays as it was otherwise. *)
Theorem parse_pair_without_articles (st : pstate) (name_section data_section : list Z) :
  finditer art_re data_section = [] ->
  results (parse_pair st name_section data_section) = results st
  /\ last_good_name (parse_pair st name_section data_section) =
     (if (length (clean_product_name (raw_name name_section)) <? 3)%nat
      then last_good_name st
      else clean_product_name (raw_name name_section)).
Proof.
  intros H. unfold parse_pair. rewrite H.
  destruct (length _ <? 3)%nat; split; reflexivity.
Qed.

End Rows.

(** *** The running name *)

Section RunningName.
Context {U : Unicode}.

Lemma default_last_cons {A : Type} (a x : A) (l : list A) :
  default a (last (x :: l)) = default x (last l).
Proof. destruct l as [|y l]; [reflexivity|]. revert y. induction l; intros; cbn in *; auto. Qed.

Lemma running_name_cons init s sections i :
  running_name init (s :: sections) (S i) = running_name (next_name init s) sections i.
Proof.
  unfold running_name, next_name. cbn [take map List.filter].
  destruct (accepted (cleaned_name s)); [apply default_last_cons | reflexivity].
Qed.

Lemma running_name_0 init s sections :
  running_name init (s :: sections) 0 = next_name init s.
Proof.
  unfold running_name, next_name. cbn [take map List.filter].
  destruct (accepted (cleaned_name s)); reflexivity.
Qed.

Lemma flat_map_map {A B C : Type} (f : B -> list C) (g : A -> B) (l : list A) :
  flat_map f (map g l) = flat_map (fun x => f (g x)) l.
Proof. induction l as [|x l IH]; cbn; [reflexivity | now rewrite IH]. Qed.

Lemma parse_loop_rows sections : forall st,
  results (parse_loop sections st) =
  results st ++
  flat_map (fun i => pair_rows (running_name (last_good_name st) sections i)
                       (nth (S i) sections []))
           (seq 0 (length sections - 1)).
Proof.
  induction sections as [|s later IH]; intros st.
  - cbn. now rewrite app_nil_r.
  - destruct later as [|d later].
    + cbn. now rewrite app_nil_r.
    + change (parse_loop (s :: d :: later) st)
        with (parse_loop (d :: later) (parse_pair st s d)).
      rewrite IH, parse_pair_spec. cbn [results last_good_name].
      rewrite <- app_assoc. f_equal.
      replace (length (s :: d :: later) - 1)%nat with (S (length (d :: later) - 1))
        by (cbn [length]; lia).
      cbn [seq flat_map]. rewrite running_name_0. f_equal.
      rewrite <- seq_shift, flat_map_map.
      apply flat_map_ext. intros i. now rewrite running_name_cons.
Qed.

Lemma running_name_step sections i s :
  sections !! i = Some s ->
  running_name [] sections i =
  if accepted (cleaned_name s) then cleaned_name s
  else match i with
       | O => []
       | S j => running_name [] sections j
       end.
Proof.
  intros Hs. unfold running_name.
  rewrite (take_S_r _ _ _ Hs), map_app, List.filter_app. cbn [map List.filter].
  destruct (accepted (cleaned_name s)).
  - now rewrite last_snoc.
  - rewrite app_nil_r. destruct i; reflexivity.
Qed.

Lemma accepted_nonempty name : accepted name = true -> name <> [].
Proof. unfold accepted. intros H ->. discriminate. Qed.

Lemma running_name_empty sections i j s :
  running_name [] sections i = [] -> (j <= i)%nat -> sections !! j = Some s ->
  accepted (cleaned_name s) = false.
Proof.
  unfold running_name. intros Hrun Hji Hs.
  destruct (accepted (cleaned_name s)) eqn:Hacc; [exfalso | reflexivity].
  assert (In (cleaned_name s)
            (List.filter accepted (map cleaned_name (take (S i) sections)))) as Hin.
  { apply List.filter_In. split; [|exact Hacc].
    apply in_map. apply list_elem_of_In.
    apply list_elem_of_lookup. exists j. rewrite lookup_take_lt by lia. exact Hs. }
  destruct (List.filter accepted _) as [|x l] eqn:El using rev_ind; [destruct Hin|].
  rewrite last_snoc in Hrun. cbn in Hrun. subst x.
  assert (In [] (List.filter accepted (map cleaned_name (take (S i) sections)))) as H0.
  { rewrite El. apply in_or_app. right. left. reflexivity. }
  apply List.filter_In in H0. destruct H0 as [_ H0]. discriminate.
Qed.

(** C5: the rows of pair [i] carry the running name of pair [i]; that
    name is the cleaned name of section [i] when it has at least 3
    characters (and is then the running value) and otherwise the
    running name of the pair before; so it is empty only if no section
    up to [i] gave a cleaned name of at least 3 characters. *)
Theorem parse_catalog_names (pages : list (list Z)) :
  let sections := sections_of pages in
  parse_catalog pages =
    flat_map (fun i => pair_rows (running_name [] sections i) (nth (S i) sections []))
             (seq 0 (length sections - 1))
  /\ (forall name data_section,
        Forall (fun row => benamning row = name) (pair_rows name data_section))
  /\ (forall i s, sections !! i = Some s ->
        running_name [] sections i =
        if (3 <=? length (cleaned_name s))%nat then cleaned_name s
        else match i with
             | O => []
             | S j => running_name [] sections j
             end)
  /\ (forall i j s, running_name [] sections i = [] -> (j <= i)%nat ->
        sections !! j = Some s -> (length (cleaned_name s) < 3)%nat).
Proof.
  intros sections. repeat split.
  - unfold parse_catalog. fold sections. rewrite parse_loop_rows. reflexivity.
  - intros name data_section. unfold pair_rows.
    destruct (finditer art_re data_section) as [|[st m] later]; [constructor|].
    generalize (col_headers_of data_section st).
    generalize ((st, m) :: later). intros ms hdr.
    induction ms as [|[st' m'] ms IH]; cbn [article_rows]; constructor; auto.
  - intros i s Hs. exact (running_name_step _ _ _ Hs).
  - intros i j s Hrun Hji Hs.
    pose proof (running_name_empty _ _ _ _ Hrun Hji Hs) as H.
    unfold accepted in H. apply Nat.leb_gt in H. exact H.
Qed.

End RunningName.

(** *** Spec texts *)

Section SpecText.
Context {U : Unicode}.

Lemma article_rows_nonempty name hdr data sm ms :
  article_rows name hdr data (sm :: ms) <> [].
Proof. destruct sm. cbn [article_rows]. discriminate. Qed.

Lemma article_rows_last name hdr data ms st m :
  specifikationer <$> last (article_rows name hdr data (ms ++ [(st, m)])) =
  Some (trim_last (spec_between data (pos m) (length data))).
Proof.
  induction ms as [|[st' m'] ms IH]; [reflexivity|].
  cbn [app article_rows]. rewrite last_cons.
  destruct (last (article_rows name hdr data (ms ++ [(st, m)]))) eqn:E; [exact IH|].
  apply last_None in E.
  destruct ms as [|[st1 m1] ms]; cbn [app article_rows] in E; discriminate.
Qed.

Lemma article_rows_lookup name hdr data ms : forall j sm nxt,
  ms !! j = Some sm -> ms !! S j = Some nxt ->
  specifikationer <$> (article_rows name hdr data ms !! j) =
  Some (spec_between data (pos (snd sm)) (fst nxt)).
Proof.
  induction ms as [|[st m] ms IH]; intros j sm nxt Hj Hn; [discriminate|].
  destruct j as [|j].
  - injection Hj as <-. destruct ms as [|[st' m'] ms]; [discriminate|].
    injection Hn as <-. reflexivity.
  - cbn [article_rows]. rewrite lookup_cons. exact (IH j sm nxt Hj Hn).
Qed.

(** C9, as amended: the spec text of the last article of a data
    section, when it has more than 30 characters and holds a
    capitalised word of at least 5 letters, is cut to the stripped text
    before the first such word, provided at least 2 characters are
    left; otherwise it is kept whole.  The spec texts of the articles
    before the last are never cut. *)
Theorem last_article_spec_trimmed
    (name hdr data : list Z) (ms : list (nat * cur)) (st : nat) (m : cur)
    (trim_start : nat) (trim_m : cur) :
  (30 < length (spec_between data (pos m) (length data)))%nat ->
  re_search trim_re (spec_between data (pos m) (length data)) = Some (trim_start, trim_m) ->
  specifikationer <$> last (article_rows name hdr data (ms ++ [(st, m)])) =
    Some (let spec_text := spec_between data (pos m) (length data) in
          let candidate := strip (take trim_start spec_text) in
          if (2 <=? length candidate)%nat then candidate else spec_text)
  /\ (forall j sm nxt,
        (ms ++ [(st, m)]) !! j = Some sm -> (ms ++ [(st, m)]) !! S j = Some nxt ->
        specifikationer <$> (article_rows name hdr data (ms ++ [(st, m)]) !! j) =
        Some (spec_between data (pos (snd sm)) (fst nxt))).
Proof.
  intros Hlen Hsearch. split.
  - rewrite article_rows_last. unfold trim_last.
    apply Nat.ltb_lt in Hlen. rewrite Hlen, Hsearch. reflexivity.
  - intros j sm nxt. apply article_rows_lookup.
Qed.

End SpecText.

(** *** The suffix of an article number *)

Section Suffix.
Context {U : Unicode}.

Lemma isword_decimal c : isdecimal c = true -> isword c = true.
Proof. intros H. unfold isword. now rewrite (isdecimal_isalnum _ H). Qed.

Lemma isword_E : isword 69 = true.
Proof. unfold isword. rewrite isalnum_ascii by lia. reflexivity. Qed.

Lemma seven_digits_inv ds :
  seven_digits ds ->
  exists d1 d2 d3 d4 d5 d6 d7,
    ds = [d1; d2; d3; d4; d5; d6; d7]
    /\ isdecimal d1 = true /\ isdecimal d2 = true /\ isdecimal d3 = true
    /\ isdecimal d4 = true /\ isdecimal d5 = true /\ isdecimal d6 = true
    /\ isdecimal d7 = true.
Proof.
  intros [Hl Hd].
  do 7 (destruct ds as [|? ds]; [discriminate|]).
  destruct ds; [|discriminate].
  cbn in Hd. repeat (apply andb_prop in Hd as [? Hd]).
  do 7 eexists. split; [reflexivity|]. repeat split; assumption.
Qed.

Lemma art_re_with_E pv ds t p :
  seven_digits ds -> isword_opt pv = false -> isword_opt (head t) = false ->
  match_at art_re {| prev := pv; rest := ds ++ 69 :: t; pos := p; grp := [] |} =
  Some {| prev := Some 69; rest := t; pos := p + 8; grp := ds |}.
Proof.
  intros Hds Hpv Ht.
  destruct (seven_digits_inv _ Hds)
    as (d1 & d2 & d3 & d4 & d5 & d6 & d7 & -> & H1 & H2 & H3 & H4 & H5 & H6 & H7).
  unfold match_at, art_re, digit, opt.
  change (l "E") with (Cls (Z.eqb 69)).
  cbn [seqs times repeat app mt rest prev pos grp length rep_loop below].
  unfold at_boundary. cbn [prev rest].
  change (head (d1 :: d2 :: d3 :: d4 :: d5 :: d6 :: d7 :: 69 :: t)) with (Some d1).
  change (head (69 :: t)) with (Some 69).
  rewrite Hpv, Ht, H1, H2, H3, H4, H5, H6, H7.
  cbn [isword_opt]. rewrite (isword_decimal _ H1), isword_E. cbn [xorb].
  rewrite Z.eqb_refl.
  replace (S (S (S (S (S (S (S p)))))) <? S (S (S (S (S (S (S (S p))))))))%nat
    with true by (symmetry; apply Nat.ltb_lt; lia).
  change (1 <? 1)%nat with false. change (0 <? 1)%nat with true. change (0 <=? 1)%nat with true.
  cbn iota.
  replace (S (S (S (S (S (S (S p)))))) - p)%nat with 7%nat by lia.
  replace (p + 8)%nat with (S (S (S (S (S (S (S (S p)))))))) by lia.
  reflexivity.
Qed.

Lemma art_re_with_other_letter pv ds t p letter :
  seven_digits ds -> isword letter = true -> letter <> 69 ->
  match_at art_re {| prev := pv; rest := ds ++ letter :: t; pos := p; grp := [] |} = None.
Proof.
  intros Hds Hw Hne.
  destruct (seven_digits_inv _ Hds)
    as (d1 & d2 & d3 & d4 & d5 & d6 & d7 & -> & H1 & H2 & H3 & H4 & H5 & H6 & H7).
  unfold match_at, art_re, digit, opt.
  change (l "E") with (Cls (Z.eqb 69)).
  cbn [seqs times repeat app mt rest prev pos grp length rep_loop below].
  unfold at_boundary. cbn [prev rest].
  change (head (letter :: t)) with (Some letter).
  rewrite H1, H2, H3, H4, H5, H6, H7.
  cbn [isword_opt]. rewrite (isword_decimal _ H7), Hw. cbn [xorb].
  assert ((69 =? letter) = false) as -> by (apply Z.eqb_neq; congruence).
  change (0 <? 1)%nat with true. change (0 <=? 0)%nat with true. cbn iota.
  destruct (xorb _ _); reflexivity.
Qed.
End Suffix.

(** *** Concrete documents *)

Module ParserExamples.
Import Samples.

Example widget_E_rows : parse_catalog [widget_doc_E] = [widget_row].
Proof. vm_compute. reflexivity. Qed.

(** C2, counterexample: with the suffix [A] the number is not matched
    and the document yields no row. *)
Lemma widget_A_no_rows : parse_catalog [widget_doc_A] = [].
Proof. vm_compute. reflexivity. Qed.

(** C2, as amended: with the suffix [E] the document yields the row
    with article number ["1234567"], headers ["Size Color"] and spec
    text ["10 mm red"]; in general 7 digits followed by [E] between
    non-word characters are matched with the [E] left out of the stored
    number, and 7 digits followed by another word character are not
    matched there. *)
Theorem article_number_suffix_E :
  parse_catalog [widget_doc_E] = [widget_row]
  /\ (forall (U : Unicode) pv ds t p,
        seven_digits ds -> isword_opt pv = false -> isword_opt (head t) = false ->
        match_at art_re {| prev := pv; rest := ds ++ 69 :: t; pos := p; grp := [] |} =
        Some {| prev := Some 69; rest := t; pos := p + 8; grp := ds |})
  /\ (forall (U : Unicode) pv ds t p letter,
        seven_digits ds -> isword letter = true -> letter <> 69 ->
        match_at art_re {| prev := pv; rest := ds ++ letter :: t; pos := p; grp := [] |} =
        None).
Proof.
  split; [exact widget_E_rows|]. split.
  - intros U pv ds t p. apply art_re_with_E.
  - intros U pv ds t p letter. apply art_re_with_other_letter.
Qed.

Lemma article_number_suffix_E_witness :
  match_at art_re {| prev := Some 32; rest := py "1234567" ++ 69 :: py " 10 mm red ";
                     pos := 12; grp := [] |} =
  Some {| prev := Some 69; rest := py " 10 mm red "; pos := 20; grp := py "1234567" |}
  /\ match_at art_re {| prev := Some 32; rest := py "1234567" ++ 65 :: py " 10 mm red ";
                        pos := 12; grp := [] |} = None.
Proof.
  destruct article_number_suffix_E as (_ & HE & Hother). split.
  - apply (HE latin1 (Some 32) (py "1234567") (py " 10 mm red ") 12%nat);
      vm_compute; auto.
  - apply (Hother latin1 (Some 32) (py "1234567") (py " 10 mm red ") 12%nat 65);
      [vm_compute; auto | vm_compute; reflexivity | lia].
Defined.

Example parse_catalog_article_numbers_example :
  map artikelnummer (parse_catalog [widget_doc_E]) = [py "1234567"].
Proof. vm_compute. reflexivity. Qed.

(** C1, counterexample: the data section [" -- "] has no article
    number, and processing the pair changes the running name from the empty string
    to ["Kabelskydd"]. *)
Lemma skipped_pair_updates_running_name :
  finditer art_re (py " -- ") = []
  /\ last_good_name (parse_pair st0 (py "Kabelskydd ") (py " -- ")) <> last_good_name st0.
Proof. split; [vm_compute; reflexivity | vm_compute; discriminate]. Qed.

(** The name set during the skipped pair is the one the next rows get. *)
Example skipped_doc_rows :
  sections_of [skipped_doc] = [py "Kabelskydd "; py " -- "; py " Hdr 1234567 spec"]
  /\ parse_catalog [skipped_doc] =
     [{| artikelnummer := py "1234567"; benamning := py "Kabelskydd";
         kolumnrubriker := py "Hdr"; specifikationer := py "spec" |}].
Proof. split; vm_compute; reflexivity. Qed.

Lemma parse_pair_without_articles_witness :
  finditer art_re (py " -- ") = []
  /\ results (parse_pair st0 (py "Kabelskydd ") (py " -- ")) = results st0
  /\ last_good_name (parse_pair st0 (py "Kabelskydd ") (py " -- ")) = py "Kabelskydd".
Proof.
  assert (finditer art_re (py " -- ") = []) as H by (vm_compute; reflexivity).
  split; [exact H|].
  destruct (parse_pair_without_articles st0 (py "Kabelskydd ") (py " -- ") H) as [Hr Hn].
  split; [exact Hr|]. rewrite Hn. vm_compute. reflexivity.
Defined.

Lemma parse_catalog_names_witness :
  parse_catalog [skipped_doc] =
  flat_map (fun i => pair_rows (running_name [] (sections_of [skipped_doc]) i)
                       (nth (S i) (sections_of [skipped_doc]) []))
           (seq 0 (length (sections_of [skipped_doc]) - 1))
  /\ running_name [] (sections_of [skipped_doc]) 1 = py "Kabelskydd".
Proof.
  destruct (parse_catalog_names [skipped_doc]) as (Hrows & _ & Hstep & _).
  split; [exact Hrows|].
  rewrite (Hstep 1%nat (py " -- ")) by (vm_compute; reflexivity).
  vm_compute. reflexivity.
Defined.

(** C9, counterexample: the spec text has 39 characters and starts
    with the capitalised word, so nothing is left before it; the row
    keeps the whole text instead of the (empty) part before the word. *)
Lemma last_article_spec_not_trimmed :
  (30 < length capital_first_spec)%nat
  /\ fst <$> re_search trim_re capital_first_spec = Some 0%nat
  /\ map specifikationer (parse_catalog [capital_first_doc]) = [capital_first_spec]
  /\ capital_first_spec <> take 0 capital_first_spec.
Proof. repeat split; vm_compute; (reflexivity || discriminate || lia). Qed.

Lemma last_article_spec_trimmed_witness :
  finditer art_re trailing_data = [(5%nat, trailing_match)]
  /\ (30 < length (spec_between trailing_data (pos trailing_match)
                     (length trailing_data)))%nat
  /\ fst <$> re_search trim_re
               (spec_between trailing_data (pos trailing_match) (length trailing_data))
     = Some 34%nat
  /\ specifikationer <$>
       last (article_rows [] (py "Hdr") trailing_data [(5%nat, trailing_match)])
     = Some (py "10 mm 2 st 3 kg 4 m 5 W 6 V 7 A 8").
Proof.
  split; [vm_compute; reflexivity|].
  assert (30 < length (spec_between trailing_data (pos trailing_match)
                         (length trailing_data)))%nat as H1 by (vm_compute; lia).
  split; [exact H1|].
  destruct (re_search trim_re
              (spec_between trailing_data (pos trailing_match) (length trailing_data)))
    as [[i c]|] eqn:H2; [|vm_compute in H2; discriminate].
  assert (i = 34%nat) as Hi by (vm_compute in H2; congruence).
  split; [now rewrite Hi|].
  destruct (last_article_spec_trimmed [] (py "Hdr") trailing_data [] 5%nat
              trailing_match i c H1 H2) as [Hlast _].
  cbn [app] in Hlast. rewrite Hlast, Hi. vm_compute. reflexivity.
Defined.

End ParserExamples.

(** ** De-duplication *)

Section Dedup.

Lemma dedup_loop_keep rows : forall seen unique,
  dedup_loop rows seen unique = unique ++ keep seen rows.
Proof.
  induction rows as [|row later IH]; intros seen unique; cbn [dedup_loop keep].
  - now rewrite app_nil_r.
  - destruct (decide (artikelnummer row ∈ seen)); rewrite IH; [reflexivity|].
    now rewrite <- app_assoc.
Qed.

Lemma keep_fresh rows : forall seen r,
  r ∈ keep seen rows -> artikelnummer r ∉ seen.
Proof.
  induction rows as [|row later IH]; intros seen r; cbn [keep].
  - intros H. inversion H.
  - destruct (decide (artikelnummer row ∈ seen)) as [Hin|Hnin].
    + apply IH.
    + intros [->|H]%elem_of_cons; [exact Hnin|].
      apply IH in H. set_solver.
Qed.

Lemma keep_NoDup rows : forall seen, NoDup (map artikelnummer (keep seen rows)).
Proof.
  induction rows as [|row later IH]; intros seen; cbn [keep].
  - constructor.
  - destruct (decide (artikelnummer row ∈ seen)); [apply IH|].
    cbn [map]. constructor; [|apply IH].
    intros H. apply list_elem_of_fmap in H as (r & Hr & Hin).
    apply keep_fresh in Hin. set_solver.
Qed.

Lemma keep_complete rows : forall seen row,
  row ∈ rows -> artikelnummer row ∈ seen
                \/ artikelnummer row ∈ map artikelnummer (keep seen rows).
Proof.
  induction rows as [|row0 later IH]; intros seen row; [intros H; inversion H|].
  cbn [keep]. intros [->|H]%elem_of_cons.
  - destruct (decide (artikelnummer row0 ∈ seen)); [left; assumption|].
    right. cbn [map]. left.
  - destruct (decide (artikelnummer row0 ∈ seen)) as [Hin|Hnin]; [exact (IH _ _ H)|].
    destruct (IH ({[artikelnummer row0]} ∪ seen) row H) as [Hs|Hk].
    + apply elem_of_union in Hs as [->%elem_of_singleton|Hs]; [|left; exact Hs].
      right. cbn [map]. left.
    + right. cbn [map]. right. exact Hk.
Qed.

Lemma keep_first rows : forall seen r,
  r ∈ keep seen rows ->
  exists i, rows !! i = Some r
            /\ forall j r', (j < i)%nat -> rows !! j = Some r' ->
                            artikelnummer r' <> artikelnummer r.
Proof.
  induction rows as [|row later IH]; intros seen r; cbn [keep].
  - intros H. inversion H.
  - destruct (decide (artikelnummer row ∈ seen)) as [Hin|Hnin].
    + intros H. pose proof (keep_fresh _ _ _ H) as Hfresh.
      destruct (IH _ _ H) as (i & Hi & Hbefore).
      exists (S i). split; [exact Hi|].
      intros [|j] r' Hj Hr'.
      * injection Hr' as <-. congruence.
      * apply (Hbefore j); [lia | exact Hr'].
    + intros [->|H]%elem_of_cons.
      * exists 0%nat. split; [reflexivity|]. intros j r' Hj. lia.
      * pose proof (keep_fresh _ _ _ H) as Hfresh.
        destruct (IH _ _ H) as (i & Hi & Hbefore).
        exists (S i). split; [exact Hi|].
        intros [|j] r' Hj Hr'.
        -- injection Hr' as <-. set_solver.
        -- apply (Hbefore j); [lia | exact Hr'].
Qed.

Lemma keep_sublist rows : forall seen, sublist (keep seen rows) rows.
Proof.
  induction rows as [|row later IH]; intros seen; cbn [keep]; [constructor|].
  destruct (decide (artikelnummer row ∈ seen)).
  - apply sublist_cons, IH.
  - apply sublist_skip, IH.
Qed.

Lemma keep_indices rows : forall seen,
  exists idx : list nat,
    StronglySorted lt idx
    /\ (forall i, i ∈ idx <->
                  exists r, first_occurrence rows i r /\ artikelnummer r ∉ seen)
    /\ Forall2 (fun i r => rows !! i = Some r) idx (keep seen rows).
Proof.
  induction rows as [|row later IH]; intros seen; cbn [keep].
  - exists []. split; [constructor|]. split; [|constructor].
    intros i. split; [intros H; inversion H|].
    intros (r & [H _] & _). discriminate.
  - destruct (decide (artikelnummer row ∈ seen)) as [Hin|Hnin].
    + destruct (IH seen) as (idx & Hs & Hm & Hf).
      exists (S <$> idx). split; [|split].
      * clear -Hs. induction Hs as [|i idx _ IHs Hi]; cbn; constructor; [exact IHs|].
        apply Forall_fmap. eapply Forall_impl; [exact Hi|]. cbn. lia.
      * intros i. rewrite list_elem_of_fmap. split.
        -- intros (i' & -> & Hi'). apply Hm in Hi' as (r & [Hr Hb] & Hfresh).
           exists r. split; [|exact Hfresh]. split; [exact Hr|].
           intros [|j] r' Hj Hr'.
           ++ injection Hr' as <-. congruence.
           ++ apply (Hb j); [lia | exact Hr'].
        -- intros (r & [Hr Hb] & Hfresh). destruct i as [|i'].
           ++ injection Hr as <-. contradiction.
           ++ exists i'. split; [reflexivity|]. apply Hm. exists r.
              split; [|exact Hfresh]. split; [exact Hr|].
              intros j r' Hj Hr'. apply (Hb (S j)); [lia | exact Hr'].
      * apply Forall2_fmap_l. exact Hf.
    + destruct (IH ({[artikelnummer row]} ∪ seen)) as (idx & Hs & Hm & Hf).
      exists (0%nat :: (S <$> idx)). split; [|split].
      * constructor.
        -- clear -Hs. induction Hs as [|i idx _ IHs Hi]; cbn; constructor; [exact IHs|].
           apply Forall_fmap. eapply Forall_impl; [exact Hi|]. cbn. lia.
        -- apply Forall_fmap, Forall_forall. intros i _. cbn. lia.
      * intros i. rewrite elem_of_cons, list_elem_of_fmap. split.
        -- intros [->|(i' & -> & Hi')].
           ++ exists row. split; [|exact Hnin]. split; [reflexivity|].
              intros j r' Hj. lia.
           ++ apply Hm in Hi' as (r & [Hr Hb] & Hfresh).
              exists r. split; [|set_solver]. split; [exact Hr|].
              intros [|j] r' Hj Hr'.
              ** injection Hr' as <-. set_solver.
              ** apply (Hb j); [lia | exact Hr'].
        -- intros (r & [Hr Hb] & Hfresh). destruct i as [|i']; [now left|].
           right. exists i'. split; [reflexivity|]. apply Hm. exists r.
           split.
           ++ split; [exact Hr|].
              intros j r' Hj Hr'. apply (Hb (S j)); [lia | exact Hr'].
           ++ assert (artikelnummer row <> artikelnummer r) as Hne
                by (apply (Hb 0%nat); [lia | reflexivity]).
              set_solver.
      * constructor; [reflexivity|]. apply Forall2_fmap_l. exact Hf.
Qed.

Lemma keep_in_order rows : first_occurrences_in_order rows (keep ∅ rows).
Proof.
  destruct (keep_indices rows ∅) as (idx & Hs & Hm & Hf).
  exists idx. split; [exact Hs|]. split; [|exact Hf].
  intros i. rewrite Hm. split.
  - intros (r & H & _). eauto.
  - intros (r & H). exists r. split; [exact H | set_solver].
Qed.

Lemma increasing_NoDup (idx : list nat) : StronglySorted lt idx -> NoDup idx.
Proof.
  induction 1 as [|i idx _ IH Hi]; constructor; [|exact IH].
  intros Hin. rewrite Forall_forall in Hi. specialize (Hi _ Hin). lia.
Qed.

Lemma read_at_unique (rows : list ProductRow) idx : forall out1 out2,
  Forall2 (fun i r => rows !! i = Some r) idx out1 ->
  Forall2 (fun i r => rows !! i = Some r) idx out2 ->
  out1 = out2.
Proof.
  induction idx as [|i idx IH]; intros out1 out2 H1 H2.
  - inversion H1; inversion H2; reflexivity.
  - inversion H1 as [|? r1 ? t1 Hr1 Ht1]; inversion H2 as [|? r2 ? t2 Hr2 Ht2]; subst.
    f_equal; [congruence | exact (IH _ _ Ht1 Ht2)].
Qed.

Lemma in_order_unique rows out1 out2 :
  first_occurrences_in_order rows out1 -> first_occurrences_in_order rows out2 ->
  out1 = out2.
Proof.
  intros (idx1 & Hs1 & Hm1 & Hf1) (idx2 & Hs2 & Hm2 & Hf2).
  assert (idx1 = idx2) as ->.
  { apply (StronglySorted_unique_strong lt); [intros; lia | assumption | assumption |].
    apply NoDup_Permutation; [now apply increasing_NoDup | now apply increasing_NoDup |].
    intros i. now rewrite Hm1, Hm2. }
  exact (read_at_unique rows idx2 _ _ Hf1 Hf2).
Qed.

(** C3: de-duplication keeps every article number of the input exactly
    once; each retained row is the first row of the input with its
    number, with that row's fields; and the retained rows stand in the
    order of their first occurrence: the output reads the input at the
    positions of the first occurrences, all of them, in increasing
    order of position, and it is the only list that does. *)
Theorem deduplicate_first_occurrences (rows : list ProductRow) :
  NoDup (map artikelnummer (deduplicate rows))
  /\ (forall a, a ∈ map artikelnummer (deduplicate rows) <-> a ∈ map artikelnummer rows)
  /\ (forall r, r ∈ deduplicate rows ->
        exists i, rows !! i = Some r
                  /\ forall j r', (j < i)%nat -> rows !! j = Some r' ->
                                  artikelnummer r' <> artikelnummer r)
  /\ sublist (deduplicate rows) rows
  /\ first_occurrences_in_order rows (deduplicate rows)
  /\ forall out, first_occurrences_in_order rows out -> out = deduplicate rows.
Proof.
  unfold deduplicate. rewrite dedup_loop_keep. cbn [app].
  split; [|split; [|split; [|split; [|split]]]].
  - apply keep_NoDup.
  - intros a. split.
    + intros Ha. apply list_elem_of_fmap in Ha as (r & -> & Hr).
      apply list_elem_of_fmap. exists r. split; [reflexivity|].
      eapply elem_of_sublist; [exact Hr | apply keep_sublist].
    + intros Ha. apply list_elem_of_fmap in Ha as (r & -> & Hr).
      destruct (keep_complete rows ∅ r Hr) as [H|H]; [set_solver | exact H].
  - apply keep_first.
  - apply keep_sublist.
  - apply keep_in_order.
  - intros out Hout. exact (in_order_unique rows _ _ Hout (keep_in_order rows)).
Qed.

End Dedup.

Module DedupExamples.
Import Samples.

Example deduplicate_rows :
  deduplicate repeated_rows = [row_of "1111111" "a"; row_of "2222222" "b"; row_of "3333333" "d"].
Proof. vm_compute. reflexivity. Qed.

Lemma deduplicate_first_occurrences_witness :
  row_of "2222222" "b" ∈ deduplicate repeated_rows
  /\ exists i, repeated_rows !! i = Some (row_of "2222222" "b")
               /\ forall j r', (j < i)%nat -> repeated_rows !! j = Some r' ->
                               artikelnummer r' <> artikelnummer (row_of "2222222" "b").
Proof.
  assert (row_of "2222222" "b" ∈ deduplicate repeated_rows) as H.
  { rewrite deduplicate_rows. apply elem_of_cons. right. apply elem_of_cons. now left. }
  split; [exact H|].
  destruct (deduplicate_first_occurrences repeated_rows) as (_ & _ & Hfirst & _).
  exact (Hfirst _ H).
Defined.

(** The same rows in another order are not the rows in the order of
    their first occurrence. *)
Example swapped_rows_not_in_order :
  let r1 := row_of "1111111" "a" in
  let r2 := row_of "2222222" "b" in
  deduplicate [r1; r2; r1] = [r1; r2]
  /\ ~ first_occurrences_in_order [r1; r2; r1] [r2; r1].
Proof.
  cbv zeta. split; [vm_compute; reflexivity|].
  intros H.
  pose proof (in_order_unique _ _ _ H (keep_in_order _)) as E.
  vm_compute in E. discriminate E.
Qed.

End DedupExamples.

(** ** The invoice *)

Module InvoiceFacts.
Import Invoice InvoiceNotions Samples.

Section Totals.
Context {num : Type} {N : Number num}.

Lemma str_eqb_eq a b : str_eqb a b = true <-> a = b.
Proof.
  revert b. induction a as [|x a IH]; intros [|y b]; cbn; split; try congruence.
  - intros [Hxy Hab]%andb_prop. apply Z.eqb_eq in Hxy. apply IH in Hab. congruence.
  - intros [= -> ->]. rewrite Z.eqb_refl. now apply IH.
Qed.

Lemma str_eqb_decide a b : str_eqb a b = bool_decide (a = b).
Proof.
  destruct (str_eqb a b) eqn:E.
  - apply str_eqb_eq in E. now rewrite bool_decide_eq_true_2.
  - rewrite bool_decide_eq_false_2; [reflexivity|].
    intros H. apply str_eqb_eq in H. congruence.
Qed.

Lemma item_loop items : forall a,
  fold_left item_step items a =
  {| lines := lines a ++ map (fun it => (summa it, incl_moms it)) items;
     total_excl_moms := fold_left add (map summa items) (total_excl_moms a);
     total_incl_moms := fold_left add (map incl_moms items) (total_incl_moms a);
     labor_total_incl_moms :=
       fold_left add (map incl_moms (List.filter is_labor items))
         (labor_total_incl_moms a) |}.
Proof.
  induction items as [|it items IH]; intros a.
  - cbn. rewrite app_nil_r. destruct a; reflexivity.
  - cbn [fold_left map List.filter]. rewrite IH. unfold item_step at 1 2 3 4.
    cbn [lines total_excl_moms total_incl_moms labor_total_incl_moms].
    rewrite <- app_assoc. unfold is_labor at 2. rewrite <- str_eqb_decide.
    destruct (str_eqb (kategori it) ARBETE); reflexivity.
Qed.

(** The loop and the branch after it, over any arithmetic with the
    operations they use. *)
Lemma invoice_totals (invoice_items : list (item num)) :
  let inv := generate_invoice invoice_items in
  let labor := sum_of (map incl_moms (List.filter is_labor invoice_items)) in
  inv_lines inv = map (fun it => (summa it, mul (summa it) n1_25)) invoice_items
  /\ inv_total_excl inv = sum_of (map summa invoice_items)
  /\ inv_total_incl inv = sum_of (map (fun it => mul (summa it) n1_25) invoice_items)
  /\ inv_rot inv =
     (if gt_zero labor then Some (mul labor (div (of_int 30) (of_int 100))) else None)
  /\ inv_total inv =
     (if gt_zero labor
      then sub (inv_total_incl inv) (mul labor (div (of_int 30) (of_int 100)))
      else inv_total_incl inv).
Proof.
  cbv zeta. unfold generate_invoice. rewrite item_loop.
  cbn [lines total_excl_moms total_incl_moms labor_total_incl_moms app].
  fold (sum_of (map incl_moms (List.filter is_labor invoice_items))).
  destruct (gt_zero (sum_of (map incl_moms (List.filter is_labor invoice_items))));
    repeat split.
Qed.

End Totals.

(** [rot_percentage / 100] for the default 30: the double nearest 0.3. *)
Lemma rot_factor_binary64 :
  PrimFloat.div (float_of_Z 30) (float_of_Z 100) = 0x1.3333333333333p-2%float.
Proof. vm_compute. reflexivity. Qed.

(** Small integers convert to floats without error. *)
Lemma float_of_Z_exact :
  forallb (fun z => match float_value (float_of_Z z) with
                    | Some q => Qeq_bool q (inject_Z z)
                    | None => false
                    end)
          (seqZ (-2048) 4097) = true.
Proof. vm_compute. reflexivity. Qed.

(** C10, as amended: with Python floats (IEEE binary64) every line's
    amount with tax is the binary64 product of the line amount and
    1.25; the totals are binary64 running sums from 0 in the order of
    the lines; the deduction is the binary64 product of the running sum
    of the tax-inclusive amounts of exactly the lines whose category is
    ['ARBETE'] and of 30/100, the double 0x1.3333333333333p-2; it is
    applied, and the total is the tax-inclusive total minus it, only
    when that sum is positive; otherwise the total is the tax-inclusive
    total.  The factor 1.25 is exactly 5/4; the factor 30/100 is
    5404319552844595 / 2^54, which is not 3/10. *)
Theorem invoice_arithmetic_binary64 (invoice_items : list (item float)) :
  let inv := generate_invoice invoice_items in
  let incl := fun it : item float => (summa it * 1.25)%float in
  let total := fun amounts : list float => fold_left PrimFloat.add amounts 0%float in
  let labor :=
    total (map incl (List.filter (fun it => bool_decide (kategori it = ARBETE))
                                 invoice_items)) in
  inv_lines inv = map (fun it => (summa it, incl it)) invoice_items
  /\ inv_total_excl inv = total (map summa invoice_items)
  /\ inv_total_incl inv = total (map incl invoice_items)
  /\ inv_rot inv =
     (if (0 <? labor)%float then Some (labor * 0x1.3333333333333p-2)%float else None)
  /\ inv_total inv =
     (if (0 <? labor)%float
      then (inv_total_incl inv - labor * 0x1.3333333333333p-2)%float
      else inv_total_incl inv)
  /\ float_value 1.25%float = Some (5 # 4)%Q
  /\ float_value 0x1.3333333333333p-2%float
     = Some (5404319552844595 # 18014398509481984)%Q
  /\ ~ (5404319552844595 # 18014398509481984 == 3 # 10)%Q.
Proof.
  cbv zeta. unfold generate_invoice. rewrite item_loop.
  cbn [lines total_excl_moms total_incl_moms labor_total_incl_moms app].
  unfold calculate_rot_deduction.
  change (@div float float_number (of_int 30) (of_int 100))
    with (PrimFloat.div (float_of_Z 30) (float_of_Z 100)).
  rewrite rot_factor_binary64.
  change (@gt_zero float float_number) with (fun x => PrimFloat.ltb 0%float x).
  cbv beta.
  change (@zero float float_number) with 0%float.
  change (@add float float_number) with PrimFloat.add.
  change (@sub float float_number) with PrimFloat.sub.
  change (@mul float float_number) with PrimFloat.mul.
  change (@incl_moms float float_number)
    with (fun it : item float => (summa it * 1.25)%float).
  change (@is_labor float) with (fun it : item float => bool_decide (kategori it = ARBETE)).
  match goal with |- context [PrimFloat.ltb 0%float ?l] => generalize l end.
  intros labor. destruct (0 <? labor)%float;
    cbn [inv_lines inv_total_excl inv_total_incl inv_rot inv_total].
  all: repeat split; try (vm_compute; reflexivity).
  all: intros H; vm_compute in H; discriminate.
Qed.

(** C10, counterexample: one labour line whose amount is the double
    0.1 (quantity 1 at price 0.1).  The amount with tax is the double
    0.125, which is not 5/4 of the double 0.1 (that is
    3602879701896397 / 2^55, a little more than 1/10); and the
    deduction is the double 5404319552844595 / 2^57, which is not 3/10
    of 1/8. *)
Lemma invoice_not_exact :
  let amount := 0x1.999999999999ap-4%float in
  let inv := generate_invoice [line "ARBETE" amount 1%float] in
  inv_lines inv = [(amount, 0.125%float)]
  /\ inv_rot inv = Some 0x1.3333333333333p-5%float
  /\ float_value amount = Some (3602879701896397 # 36028797018963968)%Q
  /\ float_value 0.125%float = Some (1 # 8)%Q
  /\ float_value 0x1.3333333333333p-5%float
     = Some (5404319552844595 # 144115188075855872)%Q
  /\ ~ (1 # 8 == (5 # 4) * (3602879701896397 # 36028797018963968))%Q
  /\ ~ (5404319552844595 # 144115188075855872 == (3 # 10) * (1 # 8))%Q.
Proof.
  cbv zeta. repeat split; try (vm_compute; reflexivity).
  all: intros H; vm_compute in H; discriminate.
Qed.

(** ** Exact arithmetic *)

Lemma exact_total (f : item Q -> Q) (k : Q) (items : list (item Q)) :
  (forall it, f it == k * summa it)%Q ->
  forall a, (fold_left Qplus (map f items) a == a + k * Qsum (map summa items))%Q.
Proof.
  intros Hf. induction items as [|it items IH]; intros a; cbn [map fold_left Qsum fold_right].
  - ring.
  - rewrite IH, Hf. fold (Qsum (map summa items)). ring.
Qed.

Lemma exact_sum (items : list Q) :
  forall a, (fold_left Qplus items a == a + Qsum items)%Q.
Proof.
  induction items as [|x items IH]; intros a; cbn [fold_left Qsum fold_right].
  - ring.
  - rewrite IH. fold (Qsum items). ring.
Qed.

(** In exact arithmetic the amounts of the claim are exact: every line
    with tax is 5/4 of the line amount, hence the total with tax 5/4 of
    the total without, and the deduction is 3/10 of 5/4 of the labour
    amounts. *)
Lemma invoice_exact (invoice_items : list (item Q)) :
  let inv := generate_invoice invoice_items in
  let labor := ((5 # 4) * Qsum (map summa (List.filter is_labor invoice_items)))%Q in
  Forall (fun l => snd l == (5 # 4) * fst l)%Q (inv_lines inv)
  /\ (inv_total_incl inv == (5 # 4) * inv_total_excl inv)%Q
  /\ match inv_rot inv with
     | Some rot =>
         (0 < labor)%Q /\ (rot == (3 # 10) * labor)%Q
         /\ (inv_total inv == inv_total_incl inv - rot)%Q
     | None => ~ (0 < labor)%Q /\ (inv_total inv == inv_total_incl inv)%Q
     end.
Proof.
  cbv zeta. unfold generate_invoice. rewrite item_loop.
  cbn [lines total_excl_moms total_incl_moms labor_total_incl_moms app].
  assert (forall it : item Q, incl_moms it == (5 # 4) * summa it)%Q as Hincl
    by (intros it; unfold incl_moms; cbn [mul n1_25 Q_number]; ring).
  pose proof (exact_total incl_moms (5 # 4) (List.filter is_labor invoice_items) Hincl 0%Q)
    as Hlabor.
  pose proof (exact_total incl_moms (5 # 4) invoice_items Hincl 0%Q) as Hall.
  pose proof (exact_sum (map summa invoice_items) 0%Q) as Hexcl.
  cbn [zero add Q_number] in *.
  assert (Forall (fun l : Q * Q => snd l == (5 # 4) * fst l)%Q
            (map (fun it : item Q => (summa it, incl_moms it)) invoice_items)) as Hlines.
  { apply Forall_forall. intros l Hl. apply list_elem_of_fmap in Hl as (it & -> & _).
    cbn [fst snd]. apply Hincl. }
  unfold calculate_rot_deduction, gt_zero. cbn [mul div of_int Q_number].
  set (L := fold_left Qplus (map incl_moms (List.filter is_labor invoice_items)) 0%Q) in *.
  set (S := Qsum (map summa (List.filter is_labor invoice_items))) in *.
  assert (L == (5 # 4) * S)%Q as HL by (rewrite Hlabor; ring).
  clearbody L S.
  destruct (0 ?= L)%Q eqn:E;
    cbn [inv_lines inv_total_excl inv_total_incl inv_rot inv_total].
  all: split; [exact Hlines|]; split; [rewrite Hall, Hexcl; ring|].
  - split; [|reflexivity]. intros H. rewrite <- HL in H.
    pose proof (proj1 (Qlt_alt _ _) H) as Hlt. congruence.
  - pose proof (proj2 (Qlt_alt _ _) E) as Hlt. split; [rewrite <- HL; exact Hlt|]. split; [|reflexivity].
    rewrite HL. field.
  - split; [|reflexivity]. intros H. rewrite <- HL in H.
    pose proof (proj1 (Qlt_alt _ _) H) as Hlt. congruence.
Qed.

(** With exact arithmetic the factors are 5/4 and 3/10. *)
Example exact_factors :
  (@n1_25 Q _ == 5 # 4)%Q /\ (@div Q _ (of_int 30) (of_int 100) == 3 # 10)%Q.
Proof. split; reflexivity. Qed.

(** Labour for 1000 and material for 200, in binary64. *)
Example invoice_float :
  generate_invoice [line "ARBETE" 1000%float 1%float; line "MATERIAL" 200%float 1%float] =
  {| inv_lines := [(1000%float, 1250%float); (200%float, 250%float)];
     inv_total_excl := 1200%float; inv_total_incl := 1500%float;
     inv_rot := Some 375%float; inv_total := 1125%float |}.
Proof. vm_compute. reflexivity. Qed.

(** Without labour no deduction is printed. *)
Example invoice_no_labor :
  generate_invoice [line "MATERIAL" 200%float 1%float] =
  {| inv_lines := [(200%float, 250%float)];
     inv_total_excl := 200%float; inv_total_incl := 250%float;
     inv_rot := None; inv_total := 250%float |}.
Proof. vm_compute. reflexivity. Qed.

End InvoiceFacts.

(** * Further properties *)

(** ** What a match consumes *)

Section Consumption.
Context {U : Unicode}.

Lemma consumed_to_refl c : consumed_to c c.
Proof. exists []. split; [reflexivity | cbn; lia]. Qed.

Lemma consumed_to_trans c1 c2 c3 :
  consumed_to c1 c2 -> consumed_to c2 c3 -> consumed_to c1 c3.
Proof.
  intros (w1 & Hr1 & Hp1) (w2 & Hr2 & Hp2). exists (w1 ++ w2).
  rewrite Hr1, Hr2, app_assoc, length_app. split; [reflexivity | lia].
Qed.

Lemma consumed_to_pos c c' : consumed_to c c' -> (pos c <= pos c')%nat.
Proof. intros (w & _ & Hp). lia. Qed.

Lemma consumed_to_length c c' :
  consumed_to c c' -> (length (rest c') + pos c' = length (rest c) + pos c)%nat.
Proof. intros (w & Hr & Hp). rewrite Hr, length_app. lia. Qed.

Lemma rep_loop_consumes {A : Type} body lo hi (k : cur -> option A) :
  (forall c k' a, body c k' = Some a ->
     exists c', k' c' = Some a /\ consumed_to c c') ->
  forall fuel i c0 a,
    rep_loop body lo hi k fuel i c0 = Some a ->
    exists c', k c' = Some a /\ consumed_to c0 c'.
Proof.
  intros Hbody. induction fuel as [|f IH]; intros i c0 a; cbn [rep_loop].
  - destruct (lo <=? i)%nat; [|discriminate].
    intros H. exists c0. split; [exact H | apply consumed_to_refl].
  - assert ((if (lo <=? i)%nat then k c0 else None) = Some a ->
            exists c', k c' = Some a /\ consumed_to c0 c') as Hstop.
    { destruct (lo <=? i)%nat; [|discriminate].
      intros H. exists c0. split; [exact H | apply consumed_to_refl]. }
    destruct (below hi i); [|exact Hstop].
    destruct (body c0 _) as [a0|] eqn:E; [|exact Hstop].
    intros [= ->]. apply Hbody in E. destruct E as (c1 & E & Hc).
    destruct (pos c0 <? pos c1)%nat; [|discriminate].
    apply IH in E. destruct E as (c' & E & Hc'). exists c'.
    split; [exact E | exact (consumed_to_trans _ _ _ Hc Hc')].
Qed.

Lemma mt_consumes {A : Type} r :
  forall c (k : cur -> option A) a,
    mt r c k = Some a -> exists c', k c' = Some a /\ consumed_to c c'.
Proof.
  induction r as [|p| |r1 IH1 r2 IH2|r1 IH1 r2 IH2|lo hi r1 IH1|r1 IH1];
    cbn [mt]; intros c k a.
  - intros H. exists c. split; [exact H | apply consumed_to_refl].
  - destruct (rest c) as [|x t] eqn:Er; [discriminate|].
    destruct (p x); [|discriminate]. intros H. eexists. split; [exact H|].
    exists [x]. cbn. split; [exact Er | lia].
  - destruct (at_boundary c); [|discriminate].
    intros H. exists c. split; [exact H | apply consumed_to_refl].
  - intros H. apply IH1 in H. destruct H as (c1 & H & Hc1).
    apply IH2 in H. destruct H as (c2 & H & Hc2).
    exists c2. split; [exact H | exact (consumed_to_trans _ _ _ Hc1 Hc2)].
  - destruct (mt r1 c k) as [a0|] eqn:E.
    + intros [= ->]. exact (IH1 _ _ _ E).
    + exact (IH2 _ _ _).
  - apply rep_loop_consumes. intros c1 k' a'. exact (IH1 c1 k' a').
  - intros H. apply IH1 in H. destruct H as (c1 & H & Hc1).
    eexists. split; [exact H|]. exact Hc1.
Qed.

Lemma rep_loop_first {A : Type} body lo hi (k : cur -> option A) :
  (forall c k' a, body c k' = Some a ->
     exists c', k' c' = Some a /\ consumed_to c c') ->
  (1 <=? lo)%nat = true ->
  forall fuel c0 a,
    rep_loop body lo hi k fuel 0 c0 = Some a ->
    exists c', k c' = Some a /\ consumed_to c0 c' /\ (pos c0 < pos c')%nat.
Proof.
  intros Hbody Hlo fuel c0 a.
  assert ((lo <=? 0)%nat = false) as Hstop.
  { apply Nat.leb_le in Hlo. apply Nat.leb_gt. lia. }
  destruct fuel as [|f]; cbn [rep_loop]; rewrite Hstop; [discriminate|].
  destruct (below hi 0); [|discriminate].
  destruct (body c0 _) as [a0|] eqn:E; [|discriminate].
  intros [= ->]. apply Hbody in E. destruct E as (c1 & E & Hc).
  destruct (pos c0 <? pos c1)%nat eqn:Hlt; [|discriminate].
  apply Nat.ltb_lt in Hlt.
  apply (rep_loop_consumes _ _ _ _ Hbody) in E. destruct E as (c' & E & Hc').
  exists c'. split; [exact E|]. split; [exact (consumed_to_trans _ _ _ Hc Hc')|].
  apply consumed_to_pos in Hc'. lia.
Qed.

Lemma mt_nonempty {A : Type} r : nonempty r = true ->
  forall c (k : cur -> option A) a,
    mt r c k = Some a ->
    exists c', k c' = Some a /\ consumed_to c c' /\ (pos c < pos c')%nat.
Proof.
  induction r as [|p| |r1 IH1 r2 IH2|r1 IH1 r2 IH2|lo hi r1 IH1|r1 IH1];
    cbn [nonempty]; intros Hne c k a; try discriminate.
  - cbn [mt]. destruct (rest c) as [|x t] eqn:Er; [discriminate|].
    destruct (p x); [|discriminate]. intros H. eexists. split; [exact H|].
    split; [|cbn; lia]. exists [x]. cbn. split; [exact Er | lia].
  - cbn [mt]. intros H. apply orb_prop in Hne as [Hne|Hne].
    + apply (IH1 Hne) in H. destruct H as (c1 & H & Hc1 & Hlt).
      apply mt_consumes in H. destruct H as (c2 & H & Hc2).
      exists c2. split; [exact H|]. split; [exact (consumed_to_trans _ _ _ Hc1 Hc2)|].
      apply consumed_to_pos in Hc2. lia.
    + apply mt_consumes in H. destruct H as (c1 & H & Hc1).
      apply (IH2 Hne) in H. destruct H as (c2 & H & Hc2 & Hlt).
      exists c2. split; [exact H|]. split; [exact (consumed_to_trans _ _ _ Hc1 Hc2)|].
      apply consumed_to_pos in Hc1. lia.
  - cbn [mt]. apply andb_prop in Hne as [Hne1 Hne2].
    destruct (mt r1 c k) as [a0|] eqn:E.
    + intros [= ->]. exact (IH1 Hne1 _ _ _ E).
    + exact (IH2 Hne2 _ _ _).
  - cbn [mt]. apply rep_loop_first; [|exact Hne].
    intros c1 k' a'. apply mt_consumes.
  - cbn [mt]. intros H. apply (IH1 Hne) in H. destruct H as (c1 & H & Hc1 & Hlt).
    eexists. split; [exact H|]. split; [exact Hc1 | exact Hlt].
Qed.

(** [re.match]: the text is what the match read followed by
    [text[m.end():]]. *)
Lemma re_match_consumes r s m :
  re_match r s = Some m -> s = take (pos m) s ++ rest m /\ (pos m <= length s)%nat.
Proof.
  unfold re_match, match_at. intros H. apply mt_consumes in H.
  destruct H as (c' & [= ->] & w & Hr & Hp). cbn in Hr, Hp. subst s.
  rewrite Hp, take_app_length, length_app. split; [reflexivity | lia].
Qed.

Lemma re_match_nonempty r s m :
  nonempty r = true -> re_match r s = Some m -> (length (rest m) < length s)%nat.
Proof.
  unfold re_match, match_at. intros Hne H. apply (mt_nonempty _ Hne) in H.
  destruct H as (c' & [= ->] & Hc & Hlt). apply consumed_to_length in Hc.
  cbn in Hc, Hlt. lia.
Qed.

End Consumption.

(** ** The name cleaner never adds anything *)

Section CleanerShrinks.
Context {U : Unicode}.

Lemma cut_match_shrinks r text t :
  nonempty r = true -> cut_match r text = Some t -> (length t < length text)%nat.
Proof.
  unfold cut_match. intros Hne. destruct (re_match r text) as [m|] eqn:E; [|discriminate].
  intros [= <-]. exact (re_match_nonempty _ _ _ Hne E).
Qed.

Lemma strip_residual_shrinks words text t :
  forallb (fun word => (0 <? length word)%nat) words = true ->
  text <> [] ->
  strip_residual words text = Some t -> (length t < length text)%nat.
Proof.
  intros Hwords Htext. induction words as [|word words IH]; cbn [strip_residual]; [discriminate|].
  cbn [forallb] in Hwords. apply andb_prop in Hwords as [Hw Hwords].
  destruct (_ || _); [|exact (IH Hwords)].
  intros [= <-]. apply Nat.ltb_lt in Hw.
  pose proof (lstrip_by_length (one_of " /") (drop (length word) text)) as Hl.
  rewrite length_drop in Hl. destruct text; [congruence|]. cbn [length] in *. lia.
Qed.

Lemma strip_code_shrinks text t :
  strip_code text = Some t -> (length t < length text)%nat.
Proof.
  unfold strip_code. destruct (re_match code_re text) as [m|] eqn:E; [|discriminate].
  destruct (re_match first_word_re _); [|discriminate].
  destruct (negb _); [|discriminate]. intros [= <-].
  pose proof (re_match_nonempty code_re _ _ eq_refl E).
  pose proof (strip_length (rest m)). lia.
Qed.

Lemma rules_shrink text text' :
  rules text = Some text' -> (length text' < length text)%nat.
Proof.
  unfold rules.
  destruct (cut_match unit_re text) eqn:E1;
    [intros [= <-]; exact (cut_match_shrinks unit_re _ _ eq_refl E1)|].
  destruct (cut_match dim_re text) eqn:E2;
    [intros [= <-]; exact (cut_match_shrinks dim_re _ _ eq_refl E2)|].
  destruct (cut_match rating_re text) eqn:E3;
    [intros [= <-]; exact (cut_match_shrinks rating_re _ _ eq_refl E3)|].
  destruct (cut_match lamp_re text) eqn:E4;
    [intros [= <-]; exact (cut_match_shrinks lamp_re _ _ eq_refl E4)|].
  destruct (cut_match pageno_re text) eqn:E5;
    [intros [= <-]; exact (cut_match_shrinks pageno_re _ _ eq_refl E5)|].
  destruct text as [|c rest_]; [discriminate|].
  destruct (one_of ".!,;:" c).
  { intros [= <-]. pose proof (lstrip_by_length isspace rest_).
    unfold lstrip. cbn [length]. lia. }
  destruct (cut_match capital_re (c :: rest_)) eqn:E6;
    [intros [= <-]; exact (cut_match_shrinks capital_re _ _ eq_refl E6)|].
  destruct (strip_residual RESIDUAL_WORDS (c :: rest_)) eqn:E7.
  { intros [= <-].
    apply (strip_residual_shrinks RESIDUAL_WORDS); [reflexivity | discriminate | exact E7]. }
  apply strip_code_shrinks.
Qed.

(** X1: whenever a rule of the stripping loop fires, the text gets
    strictly shorter: [changed] is never set without progress. *)
Theorem rules_remove_characters (text text' : list Z) :
  rules text = Some text' -> (length text' < length text)%nat.
Proof. apply rules_shrink. Qed.

End CleanerShrinks.

(** ** Where matches lie in the text *)

Section Positions.
Context {U : Unicode}.

Lemma at_pos_start s : at_pos s (start_of s).
Proof. split; cbn; [reflexivity | lia]. Qed.

Lemma at_pos_consumed s c c' : at_pos s c -> consumed_to c c' -> at_pos s c'.
Proof.
  intros [Hr Hl] (w & Hw & Hp).
  assert (length (drop (pos c) s) = (length w + length (rest c'))%nat) as Hlen
    by (rewrite <- Hr, Hw, length_app; reflexivity).
  rewrite length_drop in Hlen. split; [|lia].
  rewrite Hp, <- drop_drop, <- Hr, Hw. now rewrite drop_app_length.
Qed.

Lemma match_at_consumes r c c' : match_at r c = Some c' -> consumed_to c c'.
Proof.
  unfold match_at. intros H. apply mt_consumes in H.
  destruct H as (c1 & [= ->] & Hc). exact Hc.
Qed.

Lemma search_from_found r pv rs p st c' :
  search_from r pv rs p = Some (st, c') ->
  exists pre c0, rs = pre ++ rest c0 /\ st = (p + length pre)%nat /\ pos c0 = st
                 /\ match_at r c0 = Some c'.
Proof.
  revert pv p. induction rs as [|x rs IH]; intros pv p; cbn [search_from].
  - destruct (match_at r _) as [c1|] eqn:E; [|discriminate]. intros [= <- <-].
    exists [], {| prev := pv; rest := []; pos := p; grp := [] |}.
    cbn. repeat split; [lia | exact E].
  - destruct (match_at r _) as [c1|] eqn:E.
    + intros [= <- <-].
      exists [], {| prev := pv; rest := x :: rs; pos := p; grp := [] |}.
      cbn. repeat split; [lia | exact E].
    + intros H. apply IH in H. destruct H as (pre & c0 & Hr & Hst & Hp & Hm).
      exists (x :: pre), c0. cbn. rewrite <- Hr. repeat split; [lia | exact Hp | exact Hm].
Qed.

Lemma search_from_at s r c st c' :
  at_pos s c ->
  search_from r (prev c) (rest c) (pos c) = Some (st, c') ->
  exists c0, at_pos s c0 /\ pos c0 = st /\ (pos c <= st)%nat
             /\ match_at r c0 = Some c' /\ at_pos s c'.
Proof.
  intros Hc H. apply search_from_found in H.
  destruct H as (pre & c0 & Hr & Hst & Hp & Hm).
  assert (at_pos s c0) as Hc0.
  { apply (at_pos_consumed s c); [exact Hc|]. exists pre. split; [exact Hr | lia]. }
  exists c0. repeat split; try tauto; try lia.
  - apply Hc0.
  - apply Hc0.
  - apply (at_pos_consumed s c0 c' Hc0 (match_at_consumes _ _ _ Hm)).
  - apply (at_pos_consumed s c0 c' Hc0 (match_at_consumes _ _ _ Hm)).
Qed.

Lemma finditer_from_ordered s r fuel : forall c,
  at_pos s c -> ordered_from s (pos c) (finditer_from fuel r c).
Proof.
  induction fuel as [|f IH]; intros c Hc; cbn [finditer_from]; [exact I|].
  destruct (search_from r _ _ _) as [[st c']|] eqn:E; [|exact I].
  destruct (st <? pos c')%nat eqn:Hlt; [|exact I].
  apply Nat.ltb_lt in Hlt.
  destruct (search_from_at s r c st c' Hc E) as (c0 & _ & _ & Hle & _ & Hc').
  cbn [ordered_from]. repeat split; [exact Hle | exact Hlt | apply Hc' | exact (IH c' Hc')].
Qed.

Lemma finditer_ordered r s : ordered_from s 0 (finditer r s).
Proof. exact (finditer_from_ordered s r _ (start_of s) (at_pos_start s)). Qed.

Lemma sub_pieces_length s ms : forall at_,
  ordered_from s at_ ms -> (at_ <= length s)%nat ->
  (length (sub_pieces [] s at_ ms) + at_ <= length s)%nat.
Proof.
  induction ms as [|[st c'] ms IH]; intros at_ Hord Hat; cbn [sub_pieces].
  - rewrite length_drop. lia.
  - destruct Hord as (H1 & H2 & H3 & Hord). cbn [app].
    rewrite length_app, length_take, length_drop.
    specialize (IH (pos c') Hord H3). lia.
Qed.

Lemma re_sub_length r s : (length (re_sub r [] s) <= length s)%nat.
Proof.
  unfold re_sub. pose proof (sub_pieces_length s (finditer r s) 0 (finditer_ordered r s)).
  lia.
Qed.

End Positions.

Section CleanerLength.
Context {U : Unicode}.

Lemma strip_loop_length n : forall text, (length (strip_loop n text) <= length text)%nat.
Proof.
  induction n as [|n IH]; intros text; cbn [strip_loop]; [lia|].
  pose proof (strip_length text) as Hs.
  destruct (strip text) as [|c t] eqn:E; [cbn; lia|].
  destruct (rules (c :: t)) as [t'|] eqn:Er; [|exact Hs].
  apply rules_shrink in Er. specialize (IH t'). lia.
Qed.

Lemma cut_period_length text : (length (cut_period text) <= length text)%nat.
Proof.
  unfold cut_period. destruct (find_char 46 text) as [i|]; [|lia].
  destruct (5 <? i)%nat; [|lia].
  pose proof (strip_length (take i text)). rewrite length_take in H. lia.
Qed.

Lemma join_split_length s : forall cur k,
  (length (join (py " ") (take k (split_ws_aux cur s))) <= length cur + length s)%nat.
Proof.
  induction s as [|x s IH]; intros cur k; cbn [split_ws_aux].
  - destruct cur as [|c cur]; [destruct k; cbn; lia|].
    destruct k as [|[|k]]; cbn [take join]; rewrite ?length_rev; cbn; lia.
  - destruct (isspace x).
    + destruct cur as [|c cur].
      * specialize (IH [] k). cbn [length] in *. lia.
      * destruct k as [|k]; [cbn; lia|]. cbn [take].
        destruct (take k (split_ws_aux [] s)) as [|w r] eqn:Er.
        -- cbn [join]. rewrite length_rev. cbn [length]. lia.
        -- rewrite join_cons by congruence. rewrite <- Er.
           rewrite !length_app, length_rev.
           change (length (py " ")) with 1%nat.
           specialize (IH [] k). cbn [length] in *. lia.
    + specialize (IH (x :: cur) k). cbn [length] in *. lia.
Qed.

Lemma truncate_no_longer text : (length (truncate text) <= length text)%nat.
Proof.
  unfold truncate. destruct (150 <? length text)%nat; [|lia].
  destruct (fit_words_take (split_ws text) 0) as [k ->].
  pose proof (join_split_length text [] k). cbn [length] in H. exact H.
Qed.

(** X2: the cleaned name is never longer than the raw text. *)
Theorem clean_product_name_no_longer (raw_text : list Z) :
  (length (clean_product_name raw_text) <= length raw_text)%nat.
Proof.
  unfold clean_product_name. pose proof (strip_length raw_text) as H0.
  destruct (strip raw_text) as [|c t] eqn:E; [cbn; lia|].
  pose proof (re_sub_length filler_re (c :: t)) as H1.
  pose proof (strip_loop_length 50 (re_sub filler_re [] (c :: t))) as H2.
  pose proof (cut_period_length (strip_loop 50 (re_sub filler_re [] (c :: t)))) as H3.
  pose proof (truncate_no_longer
                (cut_period (strip_loop 50 (re_sub filler_re [] (c :: t))))) as H4.
  pose proof (strip_length
                (truncate (cut_period (strip_loop 50 (re_sub filler_re [] (c :: t)))))) as H5.
  lia.
Qed.

End CleanerLength.

Section CleanerEdges.
Context {U : Unicode}.

Lemma lstrip_by_all p s : forallb p s = true -> lstrip_by p s = [].
Proof.
  induction s as [|x s IH]; cbn; [reflexivity|].
  intros [Hx Hs]%andb_prop. rewrite Hx. exact (IH Hs).
Qed.

(** X3: a cleaned name has no whitespace at either end, and if it
    contains a period, the first one is among its first six
    characters. *)
Theorem clean_product_name_tidy (raw_text : list Z) :
  strip (clean_product_name raw_text) = clean_product_name raw_text
  /\ forall period_idx,
       find_char 46 (clean_product_name raw_text) = Some period_idx ->
       (period_idx <= 5)%nat.
Proof. split; [apply strip_clean | apply period_early_clean]. Qed.

(** X4: a raw text of whitespace only is cleaned to the empty name. *)
Theorem clean_product_name_blank (raw_text : list Z) :
  forallb isspace raw_text = true -> clean_product_name raw_text = [].
Proof.
  intros H. unfold clean_product_name, strip.
  now rewrite (lstrip_by_all _ _ H).
Qed.

End CleanerEdges.

(** ** More on the section parser *)

Section Sections.
Context {U : Unicode}.

Lemma content_pages_middle cover middle back :
  middle <> [] -> content_pages (cover :: middle ++ [back]) = middle.
Proof.
  intros Hm. unfold content_pages. cbn [length]. rewrite length_app. cbn [length].
  destruct middle as [|p middle]; [congruence|]. cbn [length].
  replace (2 <? S (S (length middle) + 1))%nat with true
    by (symmetry; apply Nat.ltb_lt; lia).
  cbn [drop]. replace (S (S (length middle) + 1) - 2)%nat with (length (p :: middle))
    by (cbn [length]; lia).
  apply take_app_length.
Qed.

(** X5: with more than two pages, the first and the last page have no
    influence on the rows. *)
Theorem parse_catalog_ignores_cover_and_back
    (cover cover' back back' : list Z) (middle : list (list Z)) :
  middle <> [] ->
  parse_catalog (cover :: middle ++ [back]) = parse_catalog (cover' :: middle ++ [back']).
Proof.
  intros Hm. unfold parse_catalog, sections_of.
  now rewrite !(content_pages_middle _ _ _ Hm).
Qed.

Lemma split_sep_aux_nonempty sep cur skip s : split_sep_aux sep cur skip s <> [].
Proof.
  revert cur skip. induction s as [|x s IH]; intros cur skip; cbn [split_sep_aux].
  - discriminate.
  - destruct skip; [|apply IH]. destruct (startswith _ _); [discriminate | apply IH].
Qed.

Lemma split_sep_aux_skip sep s : forall cur n,
  (n <= length s)%nat ->
  split_sep_aux sep cur n s = split_sep_aux sep cur 0 (drop n s).
Proof.
  induction s as [|x s IH]; intros cur n Hn.
  - cbn in Hn. replace n with 0%nat by lia. reflexivity.
  - destruct n as [|n]; [reflexivity|]. cbn [split_sep_aux drop]. apply IH.
    cbn in Hn. lia.
Qed.

Lemma startswith_app s p : startswith s p = true -> s = p ++ drop (length p) s.
Proof.
  revert s. induction p as [|y p IH]; intros s; [reflexivity|].
  destruct s as [|x s]; cbn; [discriminate|].
  intros [Hxy Hs]%andb_prop. apply Z.eqb_eq in Hxy. subst y. f_equal. exact (IH _ Hs).
Qed.

Lemma split_sep_join sep s : forall cur,
  sep <> [] -> join sep (split_sep_aux sep cur 0 s) = rev cur ++ s.
Proof.
  intros cur Hsep. remember (length s) as n eqn:Hn. revert s cur Hn.
  induction n as [n IH] using lt_wf_ind. intros s cur Hn.
  destruct s as [|x s]; cbn [split_sep_aux].
  - cbn. now rewrite app_nil_r.
  - destruct (startswith (x :: s) sep) eqn:E.
    + rewrite join_cons by apply split_sep_aux_nonempty.
      pose proof (startswith_app _ _ E) as Hs.
      destruct sep as [|y sep]; [congruence|]. cbn [length drop app] in Hs.
      injection Hs as -> Hs.
      replace (length (y :: sep) - 1)%nat with (length sep) by (cbn [length]; lia).
      assert (length sep <= length s)%nat as Hle
        by (rewrite Hs, length_app; lia).
      rewrite (split_sep_aux_skip _ _ _ _ Hle).
      rewrite (IH (length (drop (length sep) s))); [| |reflexivity].
      * cbn [rev app]. now rewrite <- Hs.
      * rewrite length_drop. cbn [length] in Hn. lia.
    + rewrite (IH (length s)); [| cbn [length] in Hn; lia | reflexivity].
      cbn [rev]. now rewrite <- app_assoc.
Qed.

(** X6: splitting at the marker loses nothing: the sections, joined
    with the marker again, are the text of the content pages. *)
Theorem sections_rejoin (pages : list (list Z)) :
  join marker (sections_of pages) = join (py " ") (content_pages pages).
Proof.
  unfold sections_of, split_sep. now rewrite split_sep_join by discriminate.
Qed.

Lemma split_sep_aux_absent sep s : forall cur,
  (forall i, startswith (drop i s) sep = false) ->
  split_sep_aux sep cur 0 s = [rev cur ++ s].
Proof.
  induction s as [|x s IH]; intros cur Habs; cbn [split_sep_aux].
  - now rewrite app_nil_r.
  - pose proof (Habs 0%nat) as H0. cbn [drop] in H0. rewrite H0. rewrite IH.
    + cbn [rev]. now rewrite <- app_assoc.
    + intros i. exact (Habs (S i)).
Qed.

(** X7: a document in which the marker does not occur yields no rows,
    whatever article numbers it contains. *)
Theorem parse_catalog_without_marker (pages : list (list Z)) :
  (forall i, startswith (drop i (join (py " ") (content_pages pages))) marker = false) ->
  parse_catalog pages = [].
Proof.
  intros Habs. unfold parse_catalog, sections_of, split_sep.
  now rewrite (split_sep_aux_absent _ _ _ Habs).
Qed.

End Sections.

Section RowFacts.
Context {U : Unicode}.

Lemma article_rows_length name hdr data ms :
  length (article_rows name hdr data ms) = length ms.
Proof.
  induction ms as [|[st m] ms IH]; cbn [article_rows length]; [reflexivity|].
  now rewrite IH.
Qed.

Lemma pair_rows_length name data :
  length (pair_rows name data) = length (finditer art_re data).
Proof.
  unfold pair_rows. destruct (finditer art_re data) as [|[st m] ms] eqn:E; [reflexivity|].
  apply article_rows_length.
Qed.

Lemma parse_loop_count sections : forall st,
  length (results (parse_loop sections st)) =
  (length (results st)
   + sum_list (map (fun data => length (finditer art_re data)) (tail sections)))%nat.
Proof.
  induction sections as [|s later IH]; intros st; [cbn; lia|].
  destruct later as [|d later]; [cbn; lia|].
  change (parse_loop (s :: d :: later) st)
    with (parse_loop (d :: later) (parse_pair st s d)).
  rewrite IH, parse_pair_spec. cbn [results tail map sum_list].
  rewrite length_app, pair_rows_length. unfold id. lia.
Qed.

(** X8: there is exactly one row for every article-number occurrence
    in the sections after the first marker; occurrences before the
    first marker give no row. *)
Theorem parse_catalog_row_count (pages : list (list Z)) :
  length (parse_catalog pages) =
  sum_list (map (fun data => length (finditer art_re data)) (tail (sections_of pages))).
Proof. unfold parse_catalog. rewrite parse_loop_count. reflexivity. Qed.

(** The match at [st] in [s]: its group is the 7 characters there. *)
Lemma art_re_group_text c m : match_at art_re c = Some m -> grp m = take 7 (rest c).
Proof.
  unfold match_at, art_re. cbn [seqs]. rewrite mt_Seq, mt_WordB.
  destruct (at_boundary _); [|discriminate].
  rewrite mt_Seq, mt_Grp. unfold digit.
  intros H. apply mt_times_cls in H.
  destruct H as (w & c' & Hr & Hl & Hw & Hpos & _ & H).
  cbn [rest pos prev] in *.
  apply (mt_nogrp (Seq (opt (l "E")) WordB) eq_refl) in H.
  destruct H as (c2 & [= <-] & Hg). rewrite Hg. cbn [grp].
  replace (pos c' - pos c)%nat with (length w) by lia.
  rewrite Hr, take_app_length. rewrite <- Hl. now rewrite take_app_length.
Qed.

Lemma finditer_from_sources s r fuel : forall c,
  at_pos s c ->
  Forall (fun sm => exists c0, rest c0 = drop (fst sm) s /\ pos c0 = fst sm
                               /\ match_at r c0 = Some (snd sm))
         (finditer_from fuel r c).
Proof.
  induction fuel as [|f IH]; intros c Hc; cbn [finditer_from]; [constructor|].
  destruct (search_from r _ _ _) as [[st c']|] eqn:E; [|constructor].
  destruct (st <? pos c')%nat; [|constructor].
  destruct (search_from_at s r c st c' Hc E) as (c0 & Hc0 & Hp & _ & Hm & Hc').
  constructor; [|exact (IH c' Hc')].
  exists c0. cbn. destruct Hc0 as [Hr _]. rewrite Hr, Hp.
  split; [reflexivity | split; [reflexivity | exact Hm]].
Qed.

Lemma finditer_art_text s :
  Forall (fun sm => (fst sm + 7 <= length s)%nat
                    /\ grp (snd sm) = take 7 (drop (fst sm) s))
         (finditer art_re s).
Proof.
  eapply Forall_impl;
    [exact (finditer_from_sources s art_re _ (start_of s) (at_pos_start s))|].
  intros [st m] (c0 & Hr & _ & Hm). cbn [fst snd] in *.
  pose proof (art_re_group_text _ _ Hm) as Ht. rewrite Hr in Ht.
  destruct (art_re_group _ _ Hm) as [Hlen _].
  split; [|exact Ht].
  rewrite Ht, length_take, length_drop in Hlen. lia.
Qed.

Lemma article_rows_text name hdr data ms :
  Forall (fun sm => (fst sm + 7 <= length data)%nat
                    /\ grp (snd sm) = take 7 (drop (fst sm) data)) ms ->
  Forall (fun row => exists st, (st + 7 <= length data)%nat
                                /\ artikelnummer row = take 7 (drop st data))
         (article_rows name hdr data ms).
Proof.
  induction 1 as [|[st m] ms Hm _ IH]; cbn [article_rows]; constructor; [|exact IH].
  exists st. exact Hm.
Qed.

Lemma pair_rows_text name data :
  Forall (fun row => exists st, (st + 7 <= length data)%nat
                                /\ artikelnummer row = take 7 (drop st data))
         (pair_rows name data).
Proof.
  unfold pair_rows. pose proof (finditer_art_text data) as H.
  destruct (finditer art_re data) as [|[st m] ms]; [constructor|].
  apply article_rows_text, H.
Qed.

Lemma parse_loop_text (Q : list Z -> Prop) sections : forall st,
  (forall data, data ∈ tail sections -> Q data) ->
  Forall (fun row => exists data st, Q data /\ (st + 7 <= length data)%nat
                                     /\ artikelnummer row = take 7 (drop st data))
         (results st) ->
  Forall (fun row => exists data st, Q data /\ (st + 7 <= length data)%nat
                                     /\ artikelnummer row = take 7 (drop st data))
         (results (parse_loop sections st)).
Proof.
  induction sections as [|s later IH]; intros st HQ Hst; [exact Hst|].
  destruct later as [|d later]; [exact Hst|].
  change (parse_loop (s :: d :: later) st)
    with (parse_loop (d :: later) (parse_pair st s d)).
  apply IH.
  - intros data Hd. apply HQ. cbn [tail] in *. apply elem_of_cons. now right.
  - rewrite parse_pair_spec. cbn [results]. apply Forall_app. split; [exact Hst|].
    eapply Forall_impl; [apply pair_rows_text|].
    intros row [st' Hrow]. exists d, st'. split; [|exact Hrow].
    apply HQ. cbn [tail]. apply elem_of_cons. now left.
Qed.

(** X9: every article number of the output stands, character for
    character, in one of the sections after the first marker: it is the
    run of 7 characters that starts at some offset [st] of the section
    and lies wholly inside it. *)
Theorem parse_catalog_numbers_from_data (pages : list (list Z)) :
  Forall (fun row =>
            exists data st, data ∈ tail (sections_of pages)
                            /\ (st + 7 <= length data)%nat
                            /\ artikelnummer row = take 7 (drop st data))
         (parse_catalog pages).
Proof.
  unfold parse_catalog. apply parse_loop_text; [auto | constructor].
Qed.

Lemma ordered_from_lookup s ms : forall at_ j st1 m1,
  ordered_from s at_ ms -> ms !! j = Some (st1, m1) ->
  (at_ <= st1)%nat /\ (st1 < pos m1)%nat /\ (pos m1 <= length s)%nat
  /\ forall st2 m2, ms !! S j = Some (st2, m2) -> (pos m1 <= st2)%nat.
Proof.
  induction ms as [|[st c'] ms IH]; intros at_ j st1 m1 Hord Hj; [discriminate|].
  destruct Hord as (H1 & H2 & H3 & Hord). destruct j as [|j].
  - injection Hj as <- <-. repeat split; try assumption.
    intros st2 m2 Hn. destruct ms as [|[st' c''] ms]; [discriminate|].
    injection Hn as <- <-. apply Hord.
  - destruct (IH (pos c') j st1 m1 Hord Hj) as (Ha & Hb & Hc & Hd).
    repeat split; try assumption; lia.
Qed.

Lemma art_re_match_length c m :
  match_at art_re c = Some m -> (pos c + 7 <= pos m)%nat.
Proof.
  unfold match_at, art_re. cbn [seqs]. rewrite mt_Seq, mt_WordB.
  destruct (at_boundary _); [|discriminate].
  rewrite mt_Seq, mt_Grp. unfold digit.
  intros H. apply mt_times_cls in H.
  destruct H as (w & c' & Hr & Hl & Hw & Hpos & _ & H).
  cbn [rest pos prev] in *.
  apply mt_consumes in H. destruct H as (c2 & [= <-] & Hc).
  apply consumed_to_pos in Hc. cbn [pos] in Hc. lia.
Qed.

Lemma finditer_art_lengths s :
  Forall (fun sm => (fst sm + 7 <= pos (snd sm))%nat) (finditer art_re s).
Proof.
  eapply Forall_impl;
    [exact (finditer_from_sources s art_re _ (start_of s) (at_pos_start s))|].
  intros [st m] (c0 & _ & Hp & Hm). cbn in *.
  pose proof (art_re_match_length _ _ Hm). lia.
Qed.

(** X10: the article numbers of a data section are found left to
    right and do not overlap: each occurrence spans at least its 7
    digits, ends inside the section, and ends no later than the next
    one starts, so every [data_section[spec_start:spec_end]] has
    [spec_start <= spec_end]. *)
Theorem art_matches_in_order (data_section : list Z) (j st1 : nat) (m1 : cur) :
  finditer art_re data_section !! j = Some (st1, m1) ->
  (st1 + 7 <= pos m1)%nat /\ (pos m1 <= length data_section)%nat
  /\ forall st2 m2, finditer art_re data_section !! S j = Some (st2, m2) ->
                    (pos m1 <= st2)%nat.
Proof.
  intros Hj.
  destruct (ordered_from_lookup _ _ _ _ _ _ (finditer_ordered art_re data_section) Hj)
    as (_ & _ & Hin & Hnext).
  split; [|split; assumption].
  pose proof (finditer_art_lengths data_section) as Hl.
  rewrite Forall_lookup in Hl. exact (Hl j _ Hj).
Qed.

End RowFacts.

Section FieldFacts.
Context {U : Unicode}.

Lemma trim_last_stripped spec_text : stripped spec_text -> stripped (trim_last spec_text).
Proof.
  intros H. unfold trim_last. destruct (30 <? length spec_text)%nat; [|exact H].
  destruct (re_search trim_re spec_text) as [[i c]|]; [|exact H].
  destruct (2 <=? _)%nat; [apply strip_idem | exact H].
Qed.

Lemma article_rows_stripped name hdr data ms :
  stripped name -> stripped hdr ->
  Forall (fun row => stripped (benamning row) /\ stripped (kolumnrubriker row)
                     /\ stripped (specifikationer row))
         (article_rows name hdr data ms).
Proof.
  intros Hn Hh. induction ms as [|[st m] ms IH]; cbn [article_rows]; constructor;
    [|exact IH].
  cbn [benamning kolumnrubriker specifikationer]. split; [exact Hn|]. split; [exact Hh|].
  unfold spec_between. destruct ms; [apply trim_last_stripped|]; apply strip_idem.
Qed.

Lemma pair_rows_stripped name data :
  stripped name ->
  Forall (fun row => stripped (benamning row) /\ stripped (kolumnrubriker row)
                     /\ stripped (specifikationer row))
         (pair_rows name data).
Proof.
  intros Hn. unfold pair_rows.
  destruct (finditer art_re data) as [|[st m] ms]; [constructor|].
  apply article_rows_stripped; [exact Hn | apply strip_idem].
Qed.

Lemma next_name_ok last_good name_section :
  name_ok last_good -> name_ok (next_name last_good name_section).
Proof.
  intros Hl. unfold next_name, accepted.
  destruct (3 <=? length (cleaned_name name_section))%nat eqn:E; [|exact Hl].
  apply Nat.leb_le in E. unfold cleaned_name in *. split.
  - apply strip_clean.
  - right. split; [exact E | apply clean_product_name_length].
Qed.

Lemma pair_rows_name name data :
  Forall (fun row => benamning row = name) (pair_rows name data).
Proof.
  unfold pair_rows. destruct (finditer art_re data) as [|[st m] later]; [constructor|].
  generalize (col_headers_of data st). generalize ((st, m) :: later). intros ms hdr.
  induction ms as [|[st' m'] ms IH]; cbn [article_rows]; constructor; auto.
Qed.

Lemma parse_loop_rows_ok sections : forall st,
  name_ok (last_good_name st) -> Forall row_ok (results st) ->
  Forall row_ok (results (parse_loop sections st)).
Proof.
  induction sections as [|s later IH]; intros st Hn Hst; [exact Hst|].
  destruct later as [|d later]; [exact Hst|].
  change (parse_loop (s :: d :: later) st)
    with (parse_loop (d :: later) (parse_pair st s d)).
  pose proof (next_name_ok (last_good_name st) s Hn) as Hnext.
  apply IH; rewrite parse_pair_spec; cbn [results last_good_name]; [exact Hnext|].
  apply Forall_app. split; [exact Hst|].
  pose proof (pair_rows_stripped (next_name (last_good_name st) s) d (proj1 Hnext)) as H1.
  pose proof (pair_rows_name (next_name (last_good_name st) s) d) as H2.
  rewrite Forall_forall in *. intros row Hrow.
  destruct (H1 row Hrow) as (_ & Hh & Hs). unfold row_ok.
  rewrite (H2 row Hrow). auto.
Qed.

Lemma parse_catalog_rows_ok pages : Forall row_ok (parse_catalog pages).
Proof.
  unfold parse_catalog. apply parse_loop_rows_ok; cbn [last_good_name results].
  - split; [reflexivity | now left].
  - constructor.
Qed.

(** X11: no field of an emitted row starts or ends with whitespace:
    name, column headers and spec text are all stripped. *)
Theorem parse_catalog_fields_stripped (pages : list (list Z)) :
  Forall (fun row =>
            strip (benamning row) = benamning row
            /\ strip (kolumnrubriker row) = kolumnrubriker row
            /\ strip (specifikationer row) = specifikationer row)
         (parse_catalog pages).
Proof.
  eapply Forall_impl; [apply parse_catalog_rows_ok|].
  intros row ((Hn & _) & Hh & Hs). auto.
Qed.

(** X12: the name of an emitted row is empty or has between 3 and 150
    characters; a cleaned name of 1 or 2 characters never reaches the
    output. *)
Theorem parse_catalog_name_lengths (pages : list (list Z)) :
  Forall (fun row => benamning row = [] \/ (3 <= length (benamning row) <= 150)%nat)
         (parse_catalog pages).
Proof.
  eapply Forall_impl; [apply parse_catalog_rows_ok|].
  intros row ((_ & Hn) & _). exact Hn.
Qed.

End FieldFacts.

(** ** More on de-duplication *)

Section DedupFacts.
Context {U : Unicode}.

Lemma keep_distinct rows : forall seen,
  NoDup (map artikelnummer rows) ->
  (forall row, row ∈ rows -> artikelnummer row ∉ seen) ->
  keep seen rows = rows.
Proof.
  induction rows as [|row later IH]; intros seen Hnd Hfresh; cbn [keep]; [reflexivity|].
  cbn [map] in Hnd. apply NoDup_cons in Hnd as [Hrow Hnd].
  destruct (decide (artikelnummer row ∈ seen)) as [Hin|_].
  - exfalso. apply (Hfresh row); [now left | exact Hin].
  - f_equal. apply IH; [exact Hnd|].
    intros r Hr. apply not_elem_of_union. split.
    + intros Heq%elem_of_singleton. apply Hrow.
      apply list_elem_of_fmap. exists r. split; [congruence | exact Hr].
    + apply Hfresh. now right.
Qed.

Lemma deduplicate_keep rows : deduplicate rows = keep ∅ rows.
Proof. unfold deduplicate. now rewrite dedup_loop_keep. Qed.

Lemma deduplicate_distinct rows :
  NoDup (map artikelnummer rows) -> deduplicate rows = rows.
Proof.
  intros Hnd. rewrite deduplicate_keep. apply keep_distinct; [exact Hnd|].
  intros row _. apply not_elem_of_empty.
Qed.

(** X13: rows whose article numbers are pairwise distinct pass
    de-duplication unchanged. *)
Theorem deduplicate_keeps_distinct_rows (rows : list ProductRow) :
  NoDup (map artikelnummer rows) -> deduplicate rows = rows.
Proof. apply deduplicate_distinct. Qed.

(** X14: de-duplicating twice is the same as de-duplicating once. *)
Theorem deduplicate_idempotent (rows : list ProductRow) :
  deduplicate (deduplicate rows) = deduplicate rows.
Proof.
  apply deduplicate_distinct. rewrite deduplicate_keep. apply keep_NoDup.
Qed.

Lemma keep_app a : forall seen b,
  keep seen (a ++ b) =
  keep seen a ++ keep (list_to_set (map artikelnummer a) ∪ seen) b.
Proof.
  induction a as [|row a IH]; intros seen b; cbn [app keep map].
  - f_equal. set_solver.
  - destruct (decide (artikelnummer row ∈ seen)) as [Hin|Hnin].
    + rewrite IH. f_equal. f_equal. set_solver.
    + cbn [app]. rewrite IH. f_equal. f_equal. f_equal. set_solver.
Qed.

Lemma keep_filter (known : gset (list Z)) b : forall seen,
  keep (known ∪ seen) b = filter (fun row => artikelnummer row ∉ known) (keep seen b).
Proof.
  induction b as [|row b IH]; intros seen; cbn [keep]; [reflexivity|].
  destruct (decide (artikelnummer row ∈ seen)) as [Hin|Hnin].
  - rewrite decide_True by set_solver. apply IH.
  - destruct (decide (artikelnummer row ∈ known)) as [Hk|Hk].
    + rewrite decide_True by set_solver.
      rewrite filter_cons_False by (intros H; exact (H Hk)).
      rewrite <- IH. f_equal. set_solver.
    + rewrite decide_False by set_solver.
      rewrite filter_cons_True by exact Hk.
      f_equal. rewrite <- IH. f_equal. set_solver.
Qed.

(** X15: de-duplicating two batches of rows one after the other: the
    result for the first batch stays in front, followed by the
    de-duplicated second batch without the numbers of the first. *)
Theorem deduplicate_app (first second : list ProductRow) :
  deduplicate (first ++ second) =
  deduplicate first
  ++ filter (fun row => artikelnummer row ∉ map artikelnummer first) (deduplicate second).
Proof.
  rewrite !deduplicate_keep, keep_app. f_equal.
  rewrite keep_filter. apply list_filter_iff.
  intros row. rewrite elem_of_list_to_set. reflexivity.
Qed.

(** X16: what [main] exports: the de-duplicated rows of a parsed
    catalog have pairwise distinct article numbers of 7 digits each,
    and they are rows of the parse, in their order. *)
Theorem exported_rows (pages : list (list Z)) :
  NoDup (map artikelnummer (deduplicate (parse_catalog pages)))
  /\ Forall (fun row => length (artikelnummer row) = 7%nat
                        /\ forallb isdecimal (artikelnummer row) = true)
            (deduplicate (parse_catalog pages))
  /\ sublist (deduplicate (parse_catalog pages)) (parse_catalog pages).
Proof.
  rewrite deduplicate_keep. split; [apply keep_NoDup|].
  split; [|apply keep_sublist].
  assert (Forall well_numbered (parse_catalog pages)) as Hall
    by (unfold parse_catalog; apply parse_loop_numbers; constructor).
  rewrite Forall_forall in *. intros row Hrow.
  pose proof (elem_of_sublist _ _ _ Hrow (keep_sublist _ _)) as Hin.
  destruct (Hall _ Hin) as (_ & Hl & Hd). auto.
Qed.

End DedupFacts.

(** ** Adding to an invoice *)

Module CartFacts.
Import Invoice InvoiceNotions Cart.

Section CartFacts.
Context {num : Type} {N : Number num}.
Variable nonzero : num -> bool.

Lemma items_loop_snoc (invoice_items : list (item num)) it a :
  fold_left item_step (invoice_items ++ [it]) a =
  item_step (fold_left item_step invoice_items a) it.
Proof. now rewrite fold_left_app. Qed.

Lemma item_step_other_category (a : acc) (x : item num) :
  kategori x <> ARBETE ->
  labor_total_incl_moms (item_step a x) = labor_total_incl_moms a.
Proof.
  intros Hcat. unfold item_step. cbn [labor_total_incl_moms].
  destruct (str_eqb (kategori x) ARBETE) eqn:E; [|reflexivity].
  apply InvoiceFacts.str_eqb_eq in E. congruence.
Qed.


Lemma no_labor_filter (invoice_items : list (item num)) :
  Forall (fun it => kategori it <> ARBETE) invoice_items ->
  List.filter is_labor invoice_items = [].
Proof.
  induction 1 as [|it items Hit _ IH]; cbn [List.filter]; [reflexivity|].
  unfold is_labor at 1. rewrite bool_decide_eq_false_2 by exact Hit. exact IH.
Qed.

(** X18: an invoice without a line of category ['ARBETE'] (an empty
    invoice too) prints no ROT deduction, and its total is the total
    with tax. *)
Theorem invoice_without_labor (invoice_items : list (item num)) :
  gt_zero zero = false ->
  Forall (fun it => kategori it <> ARBETE) invoice_items ->
  inv_rot (generate_invoice invoice_items) = None
  /\ inv_total (generate_invoice invoice_items)
     = inv_total_incl (generate_invoice invoice_items).
Proof.
  intros Hzero Hno. unfold generate_invoice. rewrite InvoiceFacts.item_loop.
  cbn [labor_total_incl_moms]. rewrite (no_labor_filter _ Hno). cbn [map fold_left].
  rewrite Hzero. split; reflexivity.
Qed.

End CartFacts.
End CartFacts.

(** ** The cap of the loop, and the rows of one pair *)

Section LoopCap.
Context {U : Unicode}.

Lemma strip_loop_settles n : forall text,
  (length text < n)%nat ->
  strip_loop n text = []
  \/ (strip (strip_loop n text) = strip_loop n text /\ rules (strip_loop n text) = None).
Proof.
  induction n as [|n IH]; intros text Hlen; [lia|]. cbn [strip_loop].
  pose proof (strip_length text) as Hs.
  destruct (strip text) as [|c t] eqn:E; [now left|].
  destruct (rules (c :: t)) as [t'|] eqn:Er.
  - apply IH. apply rules_shrink in Er. lia.
  - right. split; [|exact Er]. rewrite <- E. apply strip_idem.
Qed.

(** X19: on a text of fewer than 50 characters the cap of 50
    iterations is never what stops the loop: it ends with the empty
    text or with a stripped text that no rule applies to. *)
Theorem strip_loop_short_text_settles (text : list Z) :
  (length text < 50)%nat ->
  strip_loop 50 text = []
  \/ (strip (strip_loop 50 text) = strip_loop 50 text
      /\ rules (strip_loop 50 text) = None).
Proof. apply strip_loop_settles. Qed.

Lemma article_rows_shared name hdr data ms :
  Forall (fun row => benamning row = name /\ kolumnrubriker row = hdr)
         (article_rows name hdr data ms).
Proof.
  induction ms as [|[st m] ms IH]; cbn [article_rows]; constructor; auto.
Qed.

Lemma pair_rows_shared name data :
  exists hdr,
    Forall (fun row => benamning row = name /\ kolumnrubriker row = hdr)
           (pair_rows name data).
Proof.
  unfold pair_rows. destruct (finditer art_re data) as [|[st0 m] ms].
  - exists []. constructor.
  - exists (col_headers_of data st0). apply article_rows_shared.
Qed.

(** X20: one iteration of the section loop leaves the rows found so
    far untouched and appends one row per article number of the data
    section, all with the same name and the same column headers. *)
Theorem parse_pair_appends (st : pstate) (name_section data_section : list Z) :
  exists rows name hdr,
    results (parse_pair st name_section data_section) = results st ++ rows
    /\ length rows = length (finditer art_re data_section)
    /\ Forall (fun row => benamning row = name /\ kolumnrubriker row = hdr) rows.
Proof.
  rewrite parse_pair_spec. cbn [results].
  destruct (pair_rows_shared (next_name (last_good_name st) name_section) data_section)
    as [hdr Hshared].
  exists (pair_rows (next_name (last_good_name st) name_section) data_section),
         (next_name (last_good_name st) name_section), hdr.
  split; [reflexivity|]. split; [apply pair_rows_length | exact Hshared].
Qed.

End LoopCap.

(** ** Concrete inputs for the further properties *)

Module FurtherExamples.
Import Invoice InvoiceNotions Cart CartFacts Samples FurtherSamples.

Lemma rules_remove_characters_witness :
  rules (py "mm Kabel") = Some (py "Kabel")
  /\ (length (py "Kabel") < length (py "mm Kabel"))%nat.
Proof.
  assert (rules (py "mm Kabel") = Some (py "Kabel")) as H by (vm_compute; reflexivity).
  split; [exact H | exact (rules_remove_characters _ _ H)].
Defined.

Lemma clean_product_name_tidy_witness :
  find_char 46 (clean_product_name (py "x.y")) = Some 1%nat /\ (1 <= 5)%nat.
Proof.
  assert (find_char 46 (clean_product_name (py "x.y")) = Some 1%nat) as H
    by (vm_compute; reflexivity).
  split; [exact H|].
  exact (proj2 (clean_product_name_tidy (py "x.y")) 1%nat H).
Defined.

Lemma clean_product_name_blank_witness :
  forallb isspace blank = true /\ clean_product_name blank = [].
Proof.
  assert (forallb isspace blank = true) as H by (vm_compute; reflexivity).
  split; [exact H | exact (clean_product_name_blank blank H)].
Defined.

Lemma parse_catalog_ignores_cover_and_back_witness :
  [widget_doc_E] <> []
  /\ parse_catalog [py "Katalog 7654321"; widget_doc_E; py "Kontakt 1111111"] =
     parse_catalog [[]; widget_doc_E; []].
Proof.
  assert ([widget_doc_E] <> []) as H by discriminate.
  split; [exact H|].
  exact (parse_catalog_ignores_cover_and_back
           (py "Katalog 7654321") [] (py "Kontakt 1111111") [] [widget_doc_E] H).
Defined.

Lemma parse_catalog_without_marker_witness :
  (forall i, startswith (drop i (join (py " ") (content_pages [py "1234567"]))) marker
             = false)
  /\ parse_catalog [py "1234567"] = [].
Proof.
  assert (forall i, startswith (drop i (join (py " ") (content_pages [py "1234567"])))
                      marker = false) as H.
  { intros i. do 8 (destruct i as [|i]; [vm_compute; reflexivity|]). reflexivity. }
  split; [exact H | exact (parse_catalog_without_marker [py "1234567"] H)].
Defined.

Lemma art_matches_in_order_witness :
  finditer art_re two_numbers !! 0%nat = Some (1%nat, first_number)
  /\ (1 + 7 <= pos first_number)%nat
  /\ (pos first_number <= length two_numbers)%nat.
Proof.
  assert (finditer art_re two_numbers !! 0%nat = Some (1%nat, first_number)) as H
    by (vm_compute; reflexivity).
  split; [exact H|].
  destruct (art_matches_in_order two_numbers 0 1 first_number H) as (H1 & H2 & _).
  split; assumption.
Defined.

Lemma deduplicate_keeps_distinct_rows_witness :
  NoDup (map artikelnummer distinct_rows)
  /\ deduplicate distinct_rows = distinct_rows.
Proof.
  assert (NoDup (map artikelnummer distinct_rows)) as H.
  { apply (bool_decide_unpack (NoDup (map artikelnummer distinct_rows))).
    vm_compute. exact I. }
  split; [exact H | exact (deduplicate_keeps_distinct_rows distinct_rows H)].
Defined.


Lemma invoice_without_labor_witness :
  @gt_zero float _ zero = false
  /\ inv_rot (generate_invoice material_cart) = None.
Proof.
  assert (@gt_zero float _ zero = false) as H by (vm_compute; reflexivity).
  split; [exact H|].
  assert (Forall (fun it => kategori it <> ARBETE) material_cart) as Hno.
  { repeat constructor. vm_compute. discriminate. }
  exact (proj1 (invoice_without_labor material_cart H Hno)).
Defined.

Lemma strip_loop_short_text_settles_witness :
  (length (py "mm Kabel") < 50)%nat
  /\ rules (strip_loop 50 (py "mm Kabel")) = None.
Proof.
  assert (length (py "mm Kabel") < 50)%nat as H by (vm_compute; lia).
  split; [exact H|].
  destruct (strip_loop_short_text_settles (py "mm Kabel") H) as [H0|[_ H1]];
    [vm_compute in H0; discriminate | exact H1].
Defined.

End FurtherExamples.
